(** * Heap Memory Manager (hmm_reduced.c): a shallow embedding

    The allocator engine of [src/HMM_Reduced/hmm_reduced.c] is embedded
    over a byte-level model of the static array [heap].  The target is
    LP64 and little-endian (x86-64): [size_t], [uintptr_t] and pointers
    are 64 bits wide, [int] is 32 bits wide, unsigned arithmetic wraps
    around modulo [2^64], and

      struct BlockHeader { size_t size; BlockHeader *next; int free; }

    is laid out with [size] at offset 0, [next] at offset 8, [free] at
    offset 16 and [sizeof (BlockHeader) = 24].

    Pointers are absolute addresses.  The address of [heap[0]] is the
    section variable [heap_base].  An access that leaves the array is
    undefined behaviour in C and is the outcome [Undefined] here; the two
    loops of the program take a fuel argument and answer [Timeout] when it
    runs out. *)

From Stdlib Require Import ZArith List Bool Lia.
Import ListNotations.
Open Scope Z_scope.

(** ** Outcomes of a run *)

Inductive outcome (A : Type) : Type :=
| Done (a : A)
| Undefined
| Timeout.

Arguments Done {A} a.
Arguments Undefined {A}.
Arguments Timeout {A}.

Definition bind {A B : Type} (c : outcome A) (k : A -> outcome B) : outcome B :=
  match c with
  | Done a => k a
  | Undefined => Undefined
  | Timeout => Timeout
  end.

Definition outcome_map {A B : Type} (f : A -> B) (c : outcome A) : outcome B :=
  match c with
  | Done a => Done (f a)
  | Undefined => Undefined
  | Timeout => Timeout
  end.

Notation "x <- c ;; k" := (bind c (fun x => k))
  (at level 61, c at next level, right associativity).
Notation "' pat <- c ;; k" := (bind c (fun x => match x with pat => k end))
  (at level 61, pat pattern, c at next level, right associativity).

(** ** Machine arithmetic and the constants of the program *)

Definition wrap (x : Z) : Z := x mod 2 ^ 64.

Definition NULL : Z := 0.
Definition HEAP_SIZE : Z := 1024 * 1024.
Definition HEADER_SIZE : Z := 24.
Definition WORD : Z := 8.

(** [ALIGN(x) = ((x) + sizeof(size_t) - 1) & ~(sizeof(size_t) - 1)] *)
Definition ALIGN (x : Z) : Z :=
  Z.land (wrap (x + WORD - 1)) (wrap (Z.lnot (WORD - 1))).

(** [MIN_BLOCK_SIZE = HEADER_SIZE + ALIGN(sizeof(size_t))] *)
Definition MIN_BLOCK_SIZE : Z := wrap (HEADER_SIZE + ALIGN WORD).

(** ** The byte array and the two globals next to it *)

Definition bytes := Z -> Z.

Record state : Type := mkState {
  heap : bytes;            (* heap[i], for 0 <= i < HEAP_SIZE *)
  program_break : Z;       (* void *program_break *)
  free_list : Z            (* BlockHeader *free_list *)
}.

Definition set_heap (st : state) (m : bytes) : state :=
  mkState m (program_break st) (free_list st).
Definition set_program_break (st : state) (p : Z) : state :=
  mkState (heap st) p (free_list st).
Definition set_free_list (st : state) (p : Z) : state :=
  mkState (heap st) (program_break st) p.

(** Little-endian reading of [n] bytes from index [i]. *)
Fixpoint le_load (n : nat) (m : bytes) (i : Z) : Z :=
  match n with
  | O => 0
  | S k => m i mod 256 + 256 * le_load k m (i + 1)
  end.

(** Little-endian writing of the low [n] bytes of [v] at index [i]. *)
Definition le_store (n : Z) (m : bytes) (i v : Z) : bytes :=
  fun j =>
    if (i <=? j) && (j <? i + n)
    then (v / 2 ^ (8 * (j - i))) mod 256
    else m j.

Section Allocator.

(** The address of [heap[0]]. *)
Variable heap_base : Z.

Definition in_heap (a n : Z) : bool :=
  (heap_base <=? a) && (a + n <=? heap_base + HEAP_SIZE).

Definition load (n : nat) (st : state) (a : Z) : outcome Z :=
  if in_heap a (Z.of_nat n)
  then Done (le_load n (heap st) (a - heap_base))
  else Undefined.

Definition store (n : nat) (st : state) (a v : Z) : outcome state :=
  if in_heap a (Z.of_nat n)
  then Done (set_heap st (le_store (Z.of_nat n) (heap st) (a - heap_base) v))
  else Undefined.

(** Field accesses of a [BlockHeader *]. *)
Definition get_size (st : state) (p : Z) : outcome Z := load 8 st p.
Definition get_next (st : state) (p : Z) : outcome Z := load 8 st (p + 8).
Definition get_free (st : state) (p : Z) : outcome Z := load 4 st (p + 16).
Definition put_size (st : state) (p v : Z) : outcome state := store 8 st p v.
Definition put_next (st : state) (p v : Z) : outcome state := store 8 st (p + 8) v.
Definition put_free (st : state) (p v : Z) : outcome state := store 4 st (p + 16) v.

(** The state at program start: a zeroed array, the break at its first
    byte, an empty free list. *)
Definition initial : state := mkState (fun _ => 0) heap_base NULL.

(** ** add_to_free_list (lines 158-162) *)
Definition add_to_free_list (st : state) (block : Z) : outcome state :=
  st1 <- put_next st block (free_list st) ;;
  Done (set_free_list st1 block).

(** ** split_block (lines 135-155) *)
Definition split_block (st : state) (block size : Z) : outcome state :=
  bsz <- get_size st block ;;
  if wrap (wrap (size + HEADER_SIZE) + WORD) <=? bsz then
    let new_block := wrap (wrap (block + HEADER_SIZE) + size) in
    bsz' <- get_size st block ;;
    st1 <- put_size st new_block (wrap (wrap (bsz' - size) - HEADER_SIZE)) ;;
    st2 <- put_free st1 new_block 1 ;;
    nx <- get_next st2 block ;;
    st3 <- put_next st2 new_block nx ;;
    st4 <- put_size st3 block size ;;
    st5 <- put_next st4 block new_block ;;
    add_to_free_list st5 new_block
  else Done st.

(** ** find_free_block, after the loop (lines 106-131): heap growth *)
Definition grow (st : state) (size : Z) : outcome (state * Z) :=
  let chunk_size :=
    if wrap (size + HEADER_SIZE) <? 1024 * 16
    then 1024 * 16
    else wrap (size + HEADER_SIZE) in
  if wrap (program_break st + chunk_size) >? wrap (heap_base + HEAP_SIZE)
  then Done (st, NULL)
  else
    let new_block := program_break st in
    st1 <- put_size st new_block (wrap (chunk_size - HEADER_SIZE)) ;;
    st2 <- put_free st1 new_block 0 ;;
    st3 <- put_next st2 new_block NULL ;;
    let st4 := set_program_break st3 (wrap (program_break st3 + chunk_size)) in
    nsz <- get_size st4 new_block ;;
    if nsz >? wrap (size + MIN_BLOCK_SIZE)
    then st5 <- split_block st4 new_block size ;; Done (st5, new_block)
    else Done (st4, new_block).

(** ** find_free_block, the loop (lines 83-104) *)
Fixpoint find_loop (fuel : nat) (st : state) (size current prev : Z)
  : outcome (state * Z) :=
  match fuel with
  | O => Timeout
  | S fuel' =>
    if current =? NULL then grow st size
    else
      fr <- get_free st current ;;
      fits <- (if fr =? 0 then Done false
               else sz <- get_size st current ;; Done (size <=? sz)) ;;
      if (fits : bool) then
        nx <- get_next st current ;;
        st1 <- (if prev =? NULL then Done (set_free_list st nx)
                else put_next st prev nx) ;;
        st2 <- split_block st1 current size ;;
        Done (st2, current)
      else
        nx <- get_next st current ;;
        find_loop fuel' st size nx current
  end.

Definition find_free_block (fuel : nat) (st : state) (size : Z)
  : outcome (state * Z) :=
  find_loop fuel st size (free_list st) NULL.

(** ** merge_free_blocks (lines 165-182) *)
Fixpoint merge_loop (fuel : nat) (st : state) (current : Z) : outcome state :=
  match fuel with
  | O => Timeout
  | S fuel' =>
    if current =? NULL then Done st
    else
      nx <- get_next st current ;;
      if nx =? NULL then Done st
      else
        fc <- get_free st current ;;
        both <- (if fc =? 0 then Done false
                 else fn <- get_free st nx ;; Done (negb (fn =? 0))) ;;
        if (both : bool) then
          csz <- get_size st current ;;
          nx1 <- get_next st current ;;
          nsz <- get_size st nx1 ;;
          st1 <- put_size st current (wrap (csz + wrap (nsz + HEADER_SIZE))) ;;
          nx2 <- get_next st1 current ;;
          nn <- get_next st1 nx2 ;;
          st2 <- put_next st1 current nn ;;
          merge_loop fuel' st2 current
        else
          nx3 <- get_next st current ;;
          merge_loop fuel' st nx3
  end.

Definition merge_free_blocks (fuel : nat) (st : state) : outcome state :=
  merge_loop fuel st (free_list st).

(** ** HmmAlloc (lines 42-60) *)
Definition HmmAlloc (fuel : nat) (st : state) (size : Z) : outcome (state * Z) :=
  if size =? 0 then Done (st, NULL)
  else
    let size := ALIGN size in
    '(st1, block) <- find_free_block fuel st size ;;
    if block =? NULL then Done (st1, NULL)
    else
      st2 <- put_free st1 block 0 ;;
      Done (st2, block + HEADER_SIZE).

(** ** HmmFree (lines 63-78) *)
Definition HmmFree (fuel : nat) (st : state) (ptr : Z) : outcome state :=
  if ptr =? NULL then Done st
  else
    let block := ptr - HEADER_SIZE in
    st1 <- put_free st block 1 ;;
    st2 <- add_to_free_list st1 block ;;
    merge_free_blocks fuel st2.

(** ** main (lines 186-202): the three pointers it prints *)
Definition main_program (fuel : nat) : outcome (Z * Z * Z) :=
  '(s1, ptr1) <- HmmAlloc fuel initial (256 * 1024) ;;
  '(s2, ptr2) <- HmmAlloc fuel s1 (128 * 1024) ;;
  s3 <- HmmFree fuel s2 ptr1 ;;
  '(s4, ptr3) <- HmmAlloc fuel s3 (64 * 1024) ;;
  Done (ptr1, ptr2, ptr3).

(** ** A client that respects the contract of the two operations

    As the driver of hmm_rand.c does, the client keeps the pointers it
    got and has not yet given back, and only ever frees one of those. *)
Inductive call : Type :=
| Allocate (size : Z)
| Release (k : nat).      (* free the k-th outstanding pointer *)

Fixpoint drop_nth {A : Type} (k : nat) (l : list A) : list A :=
  match l, k with
  | [], _ => []
  | _ :: t, O => t
  | x :: t, S k' => x :: drop_nth k' t
  end.

Definition run_call (fuel : nat) (c : state * list Z) (op : call)
  : outcome (state * list Z) :=
  let '(st, live) := c in
  match op with
  | Allocate size =>
      '(st1, p) <- HmmAlloc fuel st size ;;
      Done (st1, if p =? NULL then live else live ++ [p])
  | Release k =>
      match nth_error live k with
      | Some p => st1 <- HmmFree fuel st p ;; Done (st1, drop_nth k live)
      | None => Done (st, live)
      end
  end.

Fixpoint run (fuel : nat) (c : state * list Z) (ops : list call)
  : outcome (state * list Z) :=
  match ops with
  | [] => Done c
  | op :: ops' => c1 <- run_call fuel c op ;; run fuel c1 ops'
  end.

(** ** The stress driver (hmm_rand.c, lines 24-95)

    [rnd k] is what the k-th call of rand() returns, a value between 0 and
    RAND_MAX; every iteration of the first loop calls rand() twice.  The
    array [allocations] is the list [d_slots], and [d_out] holds the lines
    printed so far. *)
Definition NUM_ALLOCATIONS : nat := 100.

(** [rand() % MAX_ALLOCATION_SIZE + 1], where the macro expands to the
    tokens [1024 * 64]: the int [rand() % 1024 * 64 + 1], converted to
    [size_t]. *)
Definition request_size (r : Z) : Z := wrap (Z.rem r 1024 * 64 + 1).

Inductive line : Type :=
| AllocationFailed (size : Z)   (* "Allocation failed for size: %zu" *)
| Allocated (size p : Z)        (* "Allocated %zu bytes at %p" *)
| Freed (p : Z)                 (* "Freed memory at %p" *)
| FreedRemaining (p : Z).       (* "Freed remaining memory at %p" *)

Fixpoint set_nth {A : Type} (k : nat) (v : A) (l : list A) : list A :=
  match l, k with
  | [], _ => []
  | _ :: t, O => v :: t
  | x :: t, S k' => x :: set_nth k' v t
  end.

Record driver_state : Type := mkDriver {
  d_alloc : state;
  d_slots : list Z;
  d_out : list line
}.

(** One iteration of the first loop (lines 35-79). *)
Definition driver_step (fuel : nat) (rnd : nat -> Z) (d : driver_state) (i : nat)
  : outcome driver_state :=
  let action := Z.rem (rnd (2 * i)%nat) 2 in
  if action =? 0 then
    let size := request_size (rnd (2 * i + 1)%nat) in
    '(st1, p) <- HmmAlloc fuel (d_alloc d) size ;;
    Done (mkDriver st1 (set_nth i p (d_slots d))
            (d_out d ++ [if p =? NULL then AllocationFailed size
                         else Allocated size p]))
  else
    let free_index := Z.to_nat (Z.rem (rnd (2 * i + 1)%nat) 100) in
    let p := nth free_index (d_slots d) NULL in
    if p =? NULL then Done d
    else
      st1 <- HmmFree fuel (d_alloc d) p ;;
      Done (mkDriver st1 (set_nth free_index NULL (d_slots d))
              (d_out d ++ [Freed p])).

Fixpoint driver_loop (fuel : nat) (rnd : nat -> Z) (n i : nat) (d : driver_state)
  : outcome driver_state :=
  match n with
  | O => Done d
  | S n' => d1 <- driver_step fuel rnd d i ;; driver_loop fuel rnd n' (S i) d1
  end.

(** The second loop (lines 82-92), over the slots in order. *)
Fixpoint driver_cleanup (fuel : nat) (slots : list Z) (st : state)
    (out : list line) : outcome (state * list line) :=
  match slots with
  | [] => Done (st, out)
  | p :: rest =>
      if p =? NULL then driver_cleanup fuel rest st out
      else
        st1 <- HmmFree fuel st p ;;
        driver_cleanup fuel rest st1 (out ++ [FreedRemaining p])
  end.

Definition driver (fuel : nat) (rnd : nat -> Z) : outcome (state * list line) :=
  d <- driver_loop fuel rnd NUM_ALLOCATIONS 0
         (mkDriver initial (repeat NULL NUM_ALLOCATIONS) []) ;;
  driver_cleanup fuel (d_slots d) (d_alloc d) (d_out d).

(** How often the output reports that [p] was handed out, and how often
    that it was given back. *)
Fixpoint handed_out (p : Z) (out : list line) : nat :=
  match out with
  | [] => O
  | Allocated _ q :: rest =>
      if q =? p then S (handed_out p rest) else handed_out p rest
  | _ :: rest => handed_out p rest
  end.

Fixpoint given_back (p : Z) (out : list line) : nat :=
  match out with
  | [] => O
  | Freed q :: rest | FreedRemaining q :: rest =>
      if q =? p then S (given_back p rest) else given_back p rest
  | _ :: rest => given_back p rest
  end.

(** At every point of the output, no pointer has been given back more
    often than it was handed out. *)
Definition balanced (out : list line) : Prop :=
  forall (pre suf : list line) (p : Z),
    out = pre ++ suf -> (given_back p pre <= handed_out p pre)%nat.

(** What holds of the driver before iteration [i] of its first loop: the
    slots from [i] on are still NULL, and every non-null pointer is in as
    many slots as the output has handed it out more often than given it
    back. *)
Definition driver_inv (i : nat) (d : driver_state) : Prop :=
  length (d_slots d) = NUM_ALLOCATIONS /\
  (forall j, (i <= j)%nat -> nth j (d_slots d) NULL = NULL) /\
  (forall q, q <> NULL ->
     (count_occ Z.eq_dec (d_slots d) q + given_back q (d_out d))%nat
     = handed_out q (d_out d)) /\
  given_back NULL (d_out d) = O /\
  balanced (d_out d) /\
  heap_base <= program_break (d_alloc d) <= heap_base + HEAP_SIZE.

(** ** Specification-level notions used by the theorems *)

(** The loop of find_free_block passes over a block when it is not free
    or too small, and takes it otherwise (line 88). *)
Definition rejected (st : state) (size a : Z) : Prop :=
  a <> NULL /\
  exists fr, get_free st a = Done fr /\
    (fr = 0 \/ exists sz, get_size st a = Done sz /\ sz < size).

Definition accepted (st : state) (size a : Z) : Prop :=
  a <> NULL /\
  exists fr sz, get_free st a = Done fr /\ fr <> 0 /\
    get_size st a = Done sz /\ size <= sz.

(** [segment st p l q]: following [next] from [p] visits the headers [l],
    in that order, and arrives at [q]. *)
Fixpoint segment (st : state) (p : Z) (l : list Z) (q : Z) : Prop :=
  match l with
  | [] => p = q
  | a :: l' => p = a /\ exists nx, get_next st a = Done nx /\ segment st nx l' q
  end.

(** Unlinking the block found: line 96 when there is no predecessor,
    line 92 when there is one. *)
Definition unlink (st : state) (pred : option Z) (nx : Z) : outcome state :=
  match pred with
  | None => Done (set_free_list st nx)
  | Some pv => put_next st pv nx
  end.

Fixpoint last_of (l : list Z) : option Z :=
  match l with
  | [] => None
  | a :: l' => match last_of l' with
               | None => Some a
               | Some b => Some b
               end
  end.

(** The value of [prev] after the loop has walked over [l]. *)
Definition pred_or (l : list Z) (prev : Z) : Z :=
  match last_of l with
  | None => prev
  | Some a => a
  end.

(** *** The free list as a list of blocks *)

Record block : Type := mkBlock {
  blk_addr : Z;        (* address of the header *)
  blk_size : Z;        (* its size field *)
  blk_free : bool      (* whether its free field is non-zero *)
}.

(** [is_list st p l]: the chain of headers that starts at [p] and ends at
    NULL is [l], field by field. *)
Fixpoint is_list (st : state) (p : Z) (l : list block) : Prop :=
  match l with
  | [] => p = NULL
  | b :: l' =>
      p = blk_addr b /\ p <> NULL /\
      get_size st p = Done (blk_size b) /\
      (exists fr, get_free st p = Done fr /\ blk_free b = negb (fr =? 0)) /\
      (exists nx, get_next st p = Done nx /\ is_list st nx l')
  end.

(** Two headers that share no byte. *)
Definition apart (b c : block) : Prop :=
  blk_addr b + HEADER_SIZE <= blk_addr c \/
  blk_addr c + HEADER_SIZE <= blk_addr b.

Fixpoint separated (l : list block) : Prop :=
  match l with
  | [] => True
  | b :: l' => Forall (apart b) l' /\ separated l'
  end.

(** Index [i] of the array lies in none of the headers of [l]. *)
Definition outside (l : list block) (i : Z) : Prop :=
  Forall (fun b => i < blk_addr b - heap_base \/
                   blk_addr b - heap_base + HEADER_SIZE <= i) l.

(** The merger as the specification words it (section 4.5): one forward
    pass in list order; a pair of free neighbours is replaced by the first
    of the two, grown by the second's size and a header; otherwise the
    pass advances to the next pair. *)
Definition absorb (cur nxt : block) : block :=
  mkBlock (blk_addr cur)
          (wrap (blk_size cur + blk_size nxt + HEADER_SIZE))
          (blk_free cur).

Fixpoint merge_pass (cur : block) (rest : list block) : list block :=
  match rest with
  | [] => [cur]
  | nxt :: rest' =>
      if blk_free cur && blk_free nxt
      then merge_pass (absorb cur nxt) rest'
      else cur :: merge_pass nxt rest'
  end.

Definition merged (l : list block) : list block :=
  match l with
  | [] => []
  | b :: rest => merge_pass b rest
  end.

(** *** Properties of a state and of the client's outstanding pointers *)

(** The byte range [header, header + size) of the block behind a pointer
    that HmmAlloc returned. *)
Definition extent (st : state) (ptr : Z) : outcome (Z * Z) :=
  sz <- get_size st (ptr - HEADER_SIZE) ;;
  Done (ptr - HEADER_SIZE, ptr - HEADER_SIZE + sz).

Definition overlapping (r1 r2 : Z * Z) : Prop :=
  fst r1 < snd r2 /\ fst r2 < snd r1.

(** P2: the blocks behind two outstanding pointers never overlap. *)
Definition no_overlap (st : state) (live : list Z) : Prop :=
  forall (i j : nat) (p q : Z) (r1 r2 : Z * Z),
    i <> j ->
    nth_error live i = Some p ->
    nth_error live j = Some q ->
    extent st p = Done r1 ->
    extent st q = Done r2 ->
    ~ overlapping r1 r2.

(** P1: the break stays inside the array. *)
Definition break_in_arena (st : state) : Prop :=
  heap_base <= program_break st <= heap_base + HEAP_SIZE.

(** A request far from the end of the [size_t] range. *)
Definition modest (size : Z) : Prop := 0 <= size <= 2 ^ 62.

(** Headers met when following [next] from [p]. *)
Inductive reachable (st : state) : Z -> Z -> Prop :=
| reach_here (p : Z) : reachable st p p
| reach_next (p nx q : Z) :
    p <> NULL ->
    get_next st p = Done nx ->
    reachable st nx q ->
    reachable st p q.

(** The free-list invariant: every block of the chain is flagged free
    and none of them is behind an outstanding pointer. *)
Definition free_list_sound (st : state) (live : list Z) : Prop :=
  forall a : Z,
    reachable st (free_list st) a ->
    a <> NULL ->
    (exists fr, get_free st a = Done fr /\ fr <> 0) /\
    ~ In (a + HEADER_SIZE) live.

(** Writing a whole header, and taking the state out of a run. *)
Definition put_header (st : state) (p sz nx fr : Z) : outcome state :=
  st1 <- put_size st p sz ;;
  st2 <- put_next st1 p nx ;;
  put_free st2 p fr.

Definition state_of {A : Type} (o : outcome (state * A)) : state :=
  match o with
  | Done (st, _) => st
  | _ => initial
  end.

Definition final (o : outcome state) : state :=
  match o with
  | Done st => st
  | _ => initial
  end.

End Allocator.


(** No two list neighbours are both free. *)
Fixpoint no_free_pair (l : list block) : Prop :=
  match l with
  | a :: (b :: _) as t => blk_free a && blk_free b = false /\ no_free_pair t
  | _ => True
  end.

(** ** States and call sequences of the concrete runs

    The concrete runs place the array at the address [0x404040]. *)
Definition heap_at : Z := 4210752.

(** A free list of three headers, in list order at offsets 1000, 0 and
    2000: the first two free, the third not. *)
Definition three_blocks : state :=
  state_of heap_at
    (s1 <- put_header heap_at (initial heap_at) (heap_at + 1000) 8 heap_at 1 ;;
     s2 <- put_header heap_at s1 heap_at 16 (heap_at + 2000) 1 ;;
     s3 <- put_header heap_at s2 (heap_at + 2000) 32 NULL 0 ;;
     Done (set_free_list s3 (heap_at + 1000), tt)).

(** The calls of [main] (lines 186-194). *)
Definition main_calls : list call :=
  [Allocate (256 * 1024); Allocate (128 * 1024); Release 0; Allocate (64 * 1024)].

Definition after_main_calls : state :=
  state_of heap_at (run heap_at 4 (initial heap_at, []) main_calls).

(** Calls after which two outstanding blocks overlap. *)
Definition overlap_calls : list call :=
  [Allocate 8; Allocate 8; Release 0; Allocate 16328].

Definition after_overlap_calls : state :=
  state_of heap_at (run heap_at 4 (initial heap_at, []) overlap_calls).

(** Calls after which a free block sits exactly at the program break. *)
Definition stray_calls : list call :=
  [Allocate 8; Allocate 16328; Release 0; Release 0; Allocate 16328].

Definition after_stray_calls : state :=
  state_of heap_at (run heap_at 4 (initial heap_at, []) stray_calls).

Definition after_stray_alloc : state :=
  state_of heap_at (HmmAlloc heap_at 4 after_stray_calls 104).

(** The same calls followed by the request that grows the arena. *)
Definition cycle_calls : list call := stray_calls ++ [Allocate 104].

Definition after_cycle_calls : state :=
  state_of heap_at (run heap_at 4 (initial heap_at, []) cycle_calls).

(** That state after find_free_block has served a request of 8 bytes. *)
Definition after_cycle_take : state :=
  state_of heap_at (find_free_block heap_at 4 after_cycle_calls 8).

(** The fresh arena grown by one chunk, as line 128 hands it to
    split_block while allocate(8) is served. *)
Definition at_first_split : state :=
  let s1 := final heap_at (put_size heap_at (initial heap_at) heap_at 16360) in
  let s2 := final heap_at (put_free heap_at s1 heap_at 0) in
  let s3 := final heap_at (put_next heap_at s2 heap_at NULL) in
  set_program_break s3 (heap_at + 16384).

(** Requests so large that the size arithmetic wraps around. *)
Definition huge : Z := 2 ^ 64 - 32.
Definition wrapping : Z := 2 ^ 64 - heap_at - HEADER_SIZE.

Definition after_wrapping_growth : state :=
  state_of heap_at (find_free_block heap_at 1 (initial heap_at) wrapping).

Definition after_wrapping_call : state :=
  state_of heap_at (run heap_at 1 (initial heap_at, []) [Allocate wrapping]).

Definition after_first_alloc : state :=
  state_of heap_at (HmmAlloc heap_at 1 (initial heap_at) 8).

Definition after_huge_growth : state :=
  state_of heap_at (find_free_block heap_at 2 after_first_alloc huge).

Definition after_huge_call : state :=
  state_of heap_at
    (run heap_at 4 (initial heap_at, []) [Allocate 8; Allocate huge]).

(** The state in which line 128 calls split_block while
    [after_first_alloc] serves a request of [huge] bytes: the new header
    is written at the break and the break is moved (lines 115-123). *)
Definition huge_block : Z := program_break after_first_alloc.

Definition at_huge_split : state :=
  let chunk := wrap (huge + HEADER_SIZE) in
  let s1 := final heap_at
              (put_size heap_at after_first_alloc huge_block
                        (wrap (chunk - HEADER_SIZE))) in
  let s2 := final heap_at (put_free heap_at s1 huge_block 0) in
  let s3 := final heap_at (put_next heap_at s2 huge_block NULL) in
  set_program_break s3 (wrap (program_break s3 + chunk)).

Definition after_huge_split : state :=
  final heap_at (split_block heap_at at_huge_split huge_block huge).

(** A run of the stress driver: rand() returns 0, 5, 0, 2047, 0, 100 (three
    allocations, into slots 0 to 2), then 1, 0, 1, 101 (the release of
    slots 0 and 1), and 199 from then on (a release of slot 99, which is
    never in use).  The second loop releases slot 2. *)
Definition stress_rnd (k : nat) : Z :=
  match k with
  | 0%nat => 0 | 1%nat => 5
  | 2%nat => 0 | 3%nat => 2047
  | 4%nat => 0 | 5%nat => 100
  | 6%nat => 1 | 7%nat => 0
  | 8%nat => 1 | 9%nat => 101
  | _ => 199
  end.

Definition after_stress : state :=
  state_of heap_at (driver heap_at 10 stress_rnd).

Definition stress_out : list line :=
  [Allocated 321 (heap_at + 24); Allocated 65473 (heap_at + 16408);
   Allocated 6401 (heap_at + 376); Freed (heap_at + 24);
   Freed (heap_at + 16408); FreedRemaining (heap_at + 376)].

(** * Properties *)

(** ** Bytes: reading after writing *)

Lemma le_load_ext (n : nat) (m m' : bytes) (i : Z) :
  (forall j, i <= j < i + Z.of_nat n -> m j = m' j) ->
  le_load n m i = le_load n m' i.
Proof.
  revert i; induction n as [|n IH]; intros i Hj; [reflexivity|].
  cbn [le_load]. rewrite (Hj i) by lia.
  rewrite (IH (i + 1)); [reflexivity|].
  intros j Hr; apply Hj; lia.
Qed.

Lemma le_load_bound (n : nat) (m : bytes) (i : Z) :
  0 <= le_load n m i < 2 ^ (8 * Z.of_nat n).
Proof.
  revert i; induction n as [|n IH]; intros i.
  - cbn; lia.
  - cbn [le_load].
    replace (8 * Z.of_nat (S n)) with (8 + 8 * Z.of_nat n) by lia.
    rewrite Z.pow_add_r by lia.
    change (2 ^ 8) with 256.
    pose proof (Z.mod_pos_bound (m i) 256 ltac:(lia)).
    specialize (IH (i + 1)). nia.
Qed.

Lemma le_store_outside (n : Z) (m : bytes) (i v j : Z) :
  j < i \/ i + n <= j -> le_store n m i v j = m j.
Proof.
  intros Hj; unfold le_store.
  destruct (i <=? j) eqn:E1; [|reflexivity].
  destruct (j <? i + n) eqn:E2; [|reflexivity].
  apply Z.leb_le in E1; apply Z.ltb_lt in E2; lia.
Qed.

Lemma le_store_inside (n : Z) (m : bytes) (i v j : Z) :
  i <= j < i + n ->
  le_store n m i v j = (v / 2 ^ (8 * (j - i))) mod 256.
Proof.
  intros Hj; unfold le_store.
  replace (i <=? j) with true by (symmetry; apply Z.leb_le; lia).
  replace (j <? i + n) with true by (symmetry; apply Z.ltb_lt; lia).
  reflexivity.
Qed.

Lemma le_load_store_tail (k : nat) (N : Z) (m : bytes) (i v d : Z) :
  0 <= d -> d + Z.of_nat k = N ->
  le_load k (le_store N m i v) (i + d) = (v / 2 ^ (8 * d)) mod 2 ^ (8 * Z.of_nat k).
Proof.
  revert d; induction k as [|k IH]; intros d Hd HN.
  - cbn. now rewrite Z.mod_1_r.
  - cbn [le_load].
    rewrite le_store_inside by lia.
    replace (i + d + 1) with (i + (d + 1)) by lia.
    rewrite IH by lia.
    replace (i + d - i) with d by lia.
    rewrite Z.mod_mod by lia.
    replace (8 * Z.of_nat (S k)) with (8 + 8 * Z.of_nat k) by lia.
    rewrite (Z.pow_add_r 2 8) by lia.
    change (2 ^ 8) with 256.
    rewrite Z.rem_mul_r by (try lia; apply Z.pow_pos_nonneg; lia).
    replace (8 * (d + 1)) with (8 * d + 8) by lia.
    rewrite Z.pow_add_r by lia.
    change (2 ^ 8) with 256.
    rewrite Z.div_div by (try lia; apply Z.pow_pos_nonneg; lia).
    reflexivity.
Qed.

Lemma le_load_store_same (n : nat) (m : bytes) (i v : Z) :
  le_load n (le_store (Z.of_nat n) m i v) i = v mod 2 ^ (8 * Z.of_nat n).
Proof.
  pose proof (le_load_store_tail n (Z.of_nat n) m i v 0 ltac:(lia) ltac:(lia)) as E.
  rewrite Z.add_0_r in E. rewrite E.
  now rewrite Z.mul_0_r, Z.pow_0_r, Z.div_1_r.
Qed.

Lemma le_load_store_apart (n : nat) (N : Z) (m : bytes) (i v j : Z) :
  j + Z.of_nat n <= i \/ i + N <= j ->
  le_load n (le_store N m i v) j = le_load n m j.
Proof.
  intros Hd; apply le_load_ext; intros x Hx.
  apply le_store_outside; lia.
Qed.

(** ** Loads and stores on the array *)

Section Memory.

Variable heap_base : Z.

Lemma bind_done {A B : Type} (c : outcome A) (k : A -> outcome B) (b : B) :
  bind c k = Done b -> exists a, c = Done a /\ k a = Done b.
Proof. destruct c; cbn; intros E; try discriminate; eauto. Qed.

Lemma load_done (n : nat) (st : state) (a v : Z) :
  load heap_base n st a = Done v ->
  in_heap heap_base a (Z.of_nat n) = true /\
  v = le_load n (heap st) (a - heap_base).
Proof.
  unfold load. destruct (in_heap _ _ _); intros E; inversion E; auto.
Qed.

Lemma store_done (n : nat) (st st' : state) (a v : Z) :
  store heap_base n st a v = Done st' ->
  in_heap heap_base a (Z.of_nat n) = true /\
  st' = set_heap st (le_store (Z.of_nat n) (heap st) (a - heap_base) v).
Proof.
  unfold store. destruct (in_heap _ _ _); intros E; inversion E; auto.
Qed.

Lemma in_heap_true (a n : Z) :
  in_heap heap_base a n = true <->
  heap_base <= a /\ a + n <= heap_base + HEAP_SIZE.
Proof.
  unfold in_heap. rewrite andb_true_iff, Z.leb_le, Z.leb_le. tauto.
Qed.

Lemma load_in_heap (n : nat) (st : state) (a : Z) :
  in_heap heap_base a (Z.of_nat n) = true ->
  load heap_base n st a = Done (le_load n (heap st) (a - heap_base)).
Proof. unfold load. now intros ->. Qed.

Lemma store_in_heap (n : nat) (st : state) (a v : Z) :
  in_heap heap_base a (Z.of_nat n) = true ->
  store heap_base n st a v =
  Done (set_heap st (le_store (Z.of_nat n) (heap st) (a - heap_base) v)).
Proof. unfold store. now intros ->. Qed.

Lemma store_globals (n : nat) (st st' : state) (a v : Z) :
  store heap_base n st a v = Done st' ->
  program_break st' = program_break st /\ free_list st' = free_list st.
Proof. intros E; apply store_done in E as [_ ->]; auto. Qed.

Lemma load_store_same (n : nat) (st st' : state) (a v : Z) :
  store heap_base n st a v = Done st' ->
  load heap_base n st' a = Done (v mod 2 ^ (8 * Z.of_nat n)).
Proof.
  intros E; apply store_done in E as [Hin ->].
  rewrite load_in_heap by assumption. cbn [heap set_heap].
  now rewrite le_load_store_same.
Qed.

Lemma load_store_apart (n n' : nat) (st st' : state) (a b v : Z) :
  store heap_base n st a v = Done st' ->
  b + Z.of_nat n' <= a \/ a + Z.of_nat n <= b ->
  load heap_base n' st' b = load heap_base n' st b.
Proof.
  intros E Hd; apply store_done in E as [Hin ->].
  unfold load. cbn [heap set_heap].
  rewrite le_load_store_apart by lia. reflexivity.
Qed.

Lemma load_set_free_list (n : nat) (st : state) (a p : Z) :
  load heap_base n (set_free_list st p) a = load heap_base n st a.
Proof. reflexivity. Qed.

Lemma load_set_program_break (n : nat) (st : state) (a p : Z) :
  load heap_base n (set_program_break st p) a = load heap_base n st a.
Proof. reflexivity. Qed.

Lemma load_frame (n : nat) (st st' : state) (a : Z) :
  (forall i, a - heap_base <= i < a - heap_base + Z.of_nat n ->
             heap st' i = heap st i) ->
  load heap_base n st' a = load heap_base n st a.
Proof.
  intros Hf. unfold load. destruct (in_heap heap_base a (Z.of_nat n)); [|reflexivity].
  f_equal. apply le_load_ext. exact Hf.
Qed.

Lemma load_wrapped (n : nat) (st : state) (a v : Z) :
  load heap_base n st a = Done v -> v mod 2 ^ (8 * Z.of_nat n) = v.
Proof.
  intros E. apply load_done in E as [_ ->].
  apply Z.mod_small, le_load_bound.
Qed.

Lemma store_after_load (n : nat) (st : state) (a v w : Z) :
  load heap_base n st a = Done v ->
  exists st', store heap_base n st a w = Done st'.
Proof.
  intros E. apply load_done in E as [Hin _].
  rewrite store_in_heap by exact Hin. eauto.
Qed.

Lemma store_heap_outside (n : nat) (st st' : state) (a v i : Z) :
  store heap_base n st a v = Done st' ->
  i < a - heap_base \/ a - heap_base + Z.of_nat n <= i ->
  heap st' i = heap st i.
Proof.
  intros E Hi. apply store_done in E as [_ ->]. cbn [heap set_heap].
  apply le_store_outside. exact Hi.
Qed.

Lemma wrap_wrap (x : Z) : wrap x mod 2 ^ (8 * Z.of_nat 8) = wrap x.
Proof. unfold wrap. change (8 * Z.of_nat 8) with 64. apply Z.mod_mod. lia. Qed.

Lemma wrap_add_r (x y : Z) : wrap (x + wrap y) = wrap (x + y).
Proof. unfold wrap. apply Z.add_mod_idemp_r. lia. Qed.

End Memory.

Ltac bind_inv H :=
  let a := fresh "a" in
  let E := fresh "E" in
  apply bind_done in H; destruct H as (a & E & H).

(** ** Allocation: the null result *)

Section NullResult.

Variable heap_base : Z.
Hypothesis heap_base_pos : 0 < heap_base.

(** Growth answers NULL only from line 111, before anything is written. *)
Lemma grow_null (st st' : state) (size : Z) :
  grow heap_base st size = Done (st', NULL) -> st' = st.
Proof.
  unfold grow.
  destruct (wrap (program_break st + _) >? wrap (heap_base + HEAP_SIZE)).
  - intros E; inversion E; reflexivity.
  - intros E. bind_inv E.
    apply store_done in E0 as [Hin _].
    apply in_heap_true in Hin.
    assert (Hnn : program_break st <> NULL) by (unfold NULL; lia).
    do 3 bind_inv E.
    destruct (a2 >? wrap (size + MIN_BLOCK_SIZE)).
    + bind_inv E. inversion E. congruence.
    + inversion E. congruence.
Qed.

Lemma find_loop_null (fuel : nat) :
  forall (st st' : state) (size current prev : Z),
  find_loop heap_base fuel st size current prev = Done (st', NULL) -> st' = st.
Proof.
  induction fuel as [|fuel IH]; intros st st' size current prev E;
    cbn [find_loop] in E; [discriminate|].
  destruct (current =? NULL) eqn:Hc.
  - now apply grow_null in E.
  - apply Z.eqb_neq in Hc.
    do 2 bind_inv E.
    destruct a0.
    + do 3 bind_inv E. inversion E. congruence.
    + bind_inv E. now apply IH in E.
Qed.

Lemma HmmAlloc_null (fuel : nat) (st st' : state) (size : Z) :
  HmmAlloc heap_base fuel st size = Done (st', NULL) -> st' = st.
Proof.
  unfold HmmAlloc. destruct (size =? 0).
  - intros E; inversion E; reflexivity.
  - intros E. bind_inv E. destruct a as [st1 block].
    unfold find_free_block in E0.
    destruct (block =? NULL) eqn:Hb.
    + apply Z.eqb_eq in Hb; subst block. inversion E; subst st1.
      now apply find_loop_null in E0.
    + bind_inv E. apply store_done in E1 as [Hin _].
      apply in_heap_true in Hin. inversion E.
      unfold NULL, HEADER_SIZE in *. lia.
Qed.

End NullResult.

(** C10: when [HmmAlloc] is asked for a positive size and answers NULL,
    the allocator state it leaves is the state it found: the free-list
    head, the program break and every byte of the array, hence every block
    header, are what they were before the call. *)
Theorem HmmAlloc_failure_leaves_state (heap_base : Z) (fuel : nat)
    (st st' : state) (size : Z) :
  0 < heap_base ->
  0 < size ->
  HmmAlloc heap_base fuel st size = Done (st', NULL) ->
  st' = st.
Proof. intros Hb _ E. now apply (HmmAlloc_null heap_base Hb) in E. Qed.

(** C9: [HmmAlloc 0] answers NULL in every state, without running the
    search loop (no fuel is needed) and without touching the break or the
    array; and whenever a request of a non-zero size fails, what the caller
    gets back, the pointer and the state, is what allocate(0) gives, so the
    two cannot be told apart. *)
Theorem HmmAlloc_zero_is_null (heap_base : Z) :
  (forall (fuel : nat) (st : state),
     HmmAlloc heap_base fuel st 0 = Done (st, NULL)) /\
  (forall (fuel : nat) (st st' : state) (size : Z),
     0 < heap_base ->
     size <> 0 ->
     HmmAlloc heap_base fuel st size = Done (st', NULL) ->
     HmmAlloc heap_base fuel st size = HmmAlloc heap_base 0 st 0).
Proof.
  split.
  - reflexivity.
  - intros fuel st st' size Hb _ E. rewrite E.
    apply (HmmAlloc_null heap_base Hb) in E. now subst.
Qed.

(** ** The first-fit search *)

Section FirstFit.

Variable heap_base : Z.

(** The loop walks over a run of rejected blocks without writing. *)
Lemma find_loop_skips (skipped : list Z) :
  forall (fuel : nat) (st : state) (size current prev stop : Z),
  segment heap_base st current skipped stop ->
  Forall (rejected heap_base st size) skipped ->
  find_loop heap_base (length skipped + fuel) st size current prev =
  find_loop heap_base fuel st size stop (pred_or skipped prev).
Proof.
  induction skipped as [|a l IH]; intros fuel st size current prev stop Hseg Hrej.
  - cbn in Hseg. subst. reflexivity.
  - cbn [segment] in Hseg. destruct Hseg as (-> & nx & Hnx & Hseg).
    inversion Hrej as [|? ? (Hnn & fr & Hfr & Hsmall) Hrest]; subst.
    cbn [length Nat.add find_loop].
    replace (a =? NULL) with false by (symmetry; now apply Z.eqb_neq).
    rewrite Hfr. cbn [bind].
    assert (Hfits :
      (if fr =? 0 then Done false
       else sz <- get_size heap_base st a ;; Done (size <=? sz)) = Done false).
    { destruct Hsmall as [-> | (sz & Hsz & Hlt)]; [reflexivity|].
      destruct (fr =? 0); [reflexivity|]. rewrite Hsz. cbn [bind].
      f_equal. apply Z.leb_gt. exact Hlt. }
    rewrite Hfits. cbn [bind]. rewrite Hnx. cbn [bind].
    rewrite (IH fuel st size nx a stop Hseg Hrest).
    unfold pred_or. cbn [last_of]. now destruct (last_of l).
Qed.

(** The loop never leaves a set of rejected blocks that is closed under
    [next]: it reaches neither a block to take nor the growth after the
    loop. *)
Lemma find_loop_circles (st : state) (size : Z) (circle : list Z) :
  (forall c, In c circle ->
     rejected heap_base st size c /\
     exists nx, get_next heap_base st c = Done nx /\ In nx circle) ->
  forall (fuel : nat) (current prev : Z),
  In current circle ->
  find_loop heap_base fuel st size current prev = Timeout.
Proof.
  intros Hc fuel.
  induction fuel as [|fuel IH]; intros current prev Hin; [reflexivity|].
  destruct (Hc current Hin) as (Hrej & nx & Hnx & Hin').
  assert (Hseg : segment heap_base st current [current] nx).
  { cbn [segment]. split; [reflexivity|]. exists nx. split; [exact Hnx|reflexivity]. }
  change (S fuel) with (length [current] + fuel)%nat.
  rewrite (find_loop_skips [current] fuel st size current prev nx Hseg
             (Forall_cons _ Hrej (Forall_nil _))).
  apply IH. exact Hin'.
Qed.

Lemma last_of_in (l : list Z) (a : Z) : last_of l = Some a -> In a l.
Proof.
  induction l as [|b l IH]; cbn [last_of]; [discriminate|].
  destruct (last_of l) as [c|]; intros E; inversion E; subst.
  - right. now apply IH.
  - now left.
Qed.

Lemma find_loop_takes (fuel : nat) (st : state) (size stop nx : Z)
    (skipped : list Z) :
  Forall (rejected heap_base st size) skipped ->
  accepted heap_base st size stop ->
  get_next heap_base st stop = Done nx ->
  find_loop heap_base (S fuel) st size stop (pred_or skipped NULL) =
  (st1 <- unlink heap_base st (last_of skipped) nx ;;
   st2 <- split_block heap_base st1 stop size ;;
   Done (st2, stop)).
Proof.
  intros Hrej (Hnn & fr & sz & Hfr & Hfree & Hsz & Hle) Hnx.
  cbn [find_loop].
  replace (stop =? NULL) with false by (symmetry; now apply Z.eqb_neq).
  rewrite Hfr. cbn [bind].
  replace (fr =? 0) with false by (symmetry; now apply Z.eqb_neq).
  rewrite Hsz. cbn [bind].
  replace (size <=? sz) with true by (symmetry; now apply Z.leb_le).
  rewrite Hnx. cbn [bind].
  unfold pred_or, unlink.
  destruct (last_of skipped) as [pv|] eqn:Hl; [|reflexivity].
  apply last_of_in in Hl.
  rewrite Forall_forall in Hrej. destruct (Hrej pv Hl) as [Hpv _].
  replace (pv =? NULL) with false by (symmetry; now apply Z.eqb_neq).
  reflexivity.
Qed.

Lemma segment_next (skipped : list Z) :
  forall (st : state) (p q pv : Z),
  segment heap_base st p skipped q ->
  last_of skipped = Some pv ->
  exists nx, get_next heap_base st pv = Done nx.
Proof.
  induction skipped as [|a l IH]; intros st p q pv Hseg Hl; [discriminate|].
  cbn [segment] in Hseg. destruct Hseg as (-> & nx & Hnx & Hseg).
  cbn [last_of] in Hl. destruct (last_of l) as [b|] eqn:El.
  - inversion Hl; subst. now apply (IH st nx q pv).
  - inversion Hl; subst. eauto.
Qed.

(** Unlinking succeeds and leaves the predecessor, or the list head,
    pointing at the successor of the block taken. *)
Lemma unlink_done (st : state) (p stop nx : Z) (skipped : list Z) :
  segment heap_base st p skipped stop ->
  get_next heap_base st stop = Done nx ->
  exists st1,
    unlink heap_base st (last_of skipped) nx = Done st1 /\
    match last_of skipped with
    | None => free_list st1 = nx
    | Some pv => get_next heap_base st1 pv = Done nx /\
                 free_list st1 = free_list st
    end.
Proof.
  intros Hseg Hnx.
  destruct (last_of skipped) as [pv|] eqn:El; cbn [unlink].
  - destruct (segment_next skipped st p stop pv Hseg El) as (n0 & Hn0).
    destruct (store_after_load heap_base 8 st (pv + 8) n0 nx Hn0) as (st1 & Hst1).
    exists st1. unfold put_next. split; [exact Hst1|]. split.
    + unfold get_next. rewrite (load_store_same heap_base 8 st st1 _ nx Hst1).
      f_equal. exact (load_wrapped heap_base 8 st _ nx Hnx).
    + now apply store_globals in Hst1.
  - exists (set_free_list st nx). split; reflexivity.
Qed.

End FirstFit.

(** X16: [find_free_block] on a free list whose scan ends.  When the
    blocks [skipped] at the front of the list are each either not free or
    smaller than the request and the block [stop] after them is free and
    large enough, [stop] is unlinked: the list head, when nothing was
    skipped, or else the [next] field of the last skipped block, is made
    [stop]'s successor; [stop] is then handed to the splitter and
    returned.  When the list ends ([stop] is NULL) without a fitting
    block, the result is that of arena growth. *)
Theorem find_free_block_first_fit (heap_base : Z) (fuel : nat) (st : state)
    (size stop : Z) (skipped : list Z) :
  segment heap_base st (free_list st) skipped stop ->
  Forall (rejected heap_base st size) skipped ->
  (length skipped < fuel)%nat ->
  (stop = NULL ->
     find_free_block heap_base fuel st size = grow heap_base st size) /\
  (forall nx : Z,
     accepted heap_base st size stop ->
     get_next heap_base st stop = Done nx ->
     exists st1,
       unlink heap_base st (last_of skipped) nx = Done st1 /\
       match last_of skipped with
       | None => free_list st1 = nx
       | Some pv => get_next heap_base st1 pv = Done nx /\
                    free_list st1 = free_list st
       end /\
       find_free_block heap_base fuel st size =
       (st2 <- split_block heap_base st1 stop size ;; Done (st2, stop))).
Proof.
  intros Hseg Hrej Hfuel.
  assert (Hf : exists k, fuel = (length skipped + S k)%nat).
  { exists (fuel - length skipped - 1)%nat. lia. }
  destruct Hf as (k & ->).
  unfold find_free_block.
  rewrite (find_loop_skips heap_base skipped (S k) st size _ NULL stop Hseg Hrej).
  split.
  - intros ->. reflexivity.
  - intros nx Hacc Hnx.
    destruct (unlink_done heap_base st (free_list st) stop nx skipped Hseg Hnx)
      as (st1 & Hst1 & Hlink).
    exists st1. split; [exact Hst1|]. split; [exact Hlink|].
    rewrite (find_loop_takes heap_base k st size stop nx skipped Hrej Hacc Hnx).
    rewrite Hst1. reflexivity.
Qed.

(** ** The merger *)

Section Merger.

Variable heap_base : Z.

(** A chain is untouched by writes that stay clear of its headers. *)
Lemma is_list_frame (l : list block) :
  forall (st st' : state) (p : Z),
  (forall i, ~ outside heap_base l i -> heap st' i = heap st i) ->
  is_list heap_base st p l -> is_list heap_base st' p l.
Proof.
  induction l as [|b l IH]; intros st st' p Hf Hl; [exact Hl|].
  cbn [is_list] in *.
  destruct Hl as (-> & Hnn & Hsz & (fr & Hfr & Hb) & nx & Hnx & Hl).
  assert (Hin : forall i,
             blk_addr b - heap_base <= i < blk_addr b - heap_base + HEADER_SIZE ->
             heap st' i = heap st i).
  { intros i Hi. apply Hf. intros Ho. inversion Ho; subst. lia. }
  unfold HEADER_SIZE in Hin.
  repeat split; auto.
  - unfold get_size. rewrite <- Hsz. apply load_frame.
    intros i Hi. apply Hin. lia.
  - exists fr. split; [|exact Hb].
    unfold get_free. rewrite <- Hfr. apply load_frame.
    intros i Hi. apply Hin. change (Z.of_nat 4) with 4 in Hi. lia.
  - exists nx. split.
    + unfold get_next. rewrite <- Hnx. apply load_frame.
      intros i Hi. apply Hin. change (Z.of_nat 8) with 8 in Hi. lia.
    + apply (IH st st' nx); [|exact Hl].
      intros i Hi. apply Hf. intros Ho. apply Hi. now inversion Ho.
Qed.

Lemma outside_head_of_apart (b : block) (l : list block) (i : Z) :
  Forall (apart b) l ->
  blk_addr b - heap_base <= i < blk_addr b - heap_base + HEADER_SIZE ->
  outside heap_base l i.
Proof.
  intros Ha Hi. unfold outside.
  rewrite Forall_forall in *. intros c Hc. specialize (Ha c Hc).
  unfold apart in Ha. lia.
Qed.

(** One run of the loop from [cur] over the chain [cur :: rest]. *)
Lemma merge_loop_pass (rest : list block) :
  forall (cur : block) (st : state) (fuel : nat),
  is_list heap_base st (blk_addr cur) (cur :: rest) ->
  separated (cur :: rest) ->
  (length rest < fuel)%nat ->
  exists st',
    merge_loop heap_base fuel st (blk_addr cur) = Done st' /\
    is_list heap_base st' (blk_addr cur) (merge_pass cur rest) /\
    free_list st' = free_list st /\
    program_break st' = program_break st /\
    (forall i, outside heap_base (cur :: rest) i -> heap st' i = heap st i).
Proof.
  induction rest as [|nxt rest IH]; intros cur st fuel Hl Hsep Hfuel.
  - destruct fuel as [|fuel]; [cbn in Hfuel; lia|].
    pose proof Hl as Hl0. cbn [is_list] in Hl.
    destruct Hl as (_ & Hnn & _ & _ & nx & Hnx & ->).
    exists st. cbn [merge_loop].
    replace (blk_addr cur =? NULL) with false by (symmetry; now apply Z.eqb_neq).
    rewrite Hnx. cbn. auto.
  - destruct fuel as [|fuel]; [cbn in Hfuel; lia|].
    cbn [length] in Hfuel.
    cbn [is_list] in Hl.
    destruct Hl as (_ & Hnn & Hsz & (fc & Hfc & Hbc) & n & Hn & Hl).
    pose proof Hl as Hl1.
    destruct Hl as (-> & Hnn' & Hsz' & (fn & Hfn & Hbn) & nn & Hnx' & Hl).
    cbn [separated] in Hsep. destruct Hsep as (Hac & Han & Hsep).
    pose proof (Forall_inv Hac) as Hcn. unfold apart, HEADER_SIZE in Hcn.
    cbn [merge_loop].
    replace (blk_addr cur =? NULL) with false by (symmetry; now apply Z.eqb_neq).
    rewrite Hn. cbn [bind].
    replace (blk_addr nxt =? NULL) with false by (symmetry; now apply Z.eqb_neq).
    rewrite Hfc. cbn [bind].
    assert (Hboth :
      (if fc =? 0 then Done false
       else fn0 <- get_free heap_base st (blk_addr nxt) ;; Done (negb (fn0 =? 0)))
      = Done (blk_free cur && blk_free nxt)).
    { rewrite Hbc, Hbn. destruct (fc =? 0); cbn; [reflexivity|].
      rewrite Hfn. reflexivity. }
    rewrite Hboth. cbn [bind merge_pass].
    destruct (blk_free cur && blk_free nxt).
    + (* both free: absorb the neighbour and stay *)
      rewrite Hsz. cbn [bind]. rewrite Hsz'. cbn [bind].
      set (v := wrap (blk_size cur + wrap (blk_size nxt + HEADER_SIZE))).
      destruct (store_after_load heap_base 8 st (blk_addr cur) _ v Hsz) as (st1 & Hst1).
      unfold put_size. rewrite Hst1. cbn [bind].
      assert (Hn1 : get_next heap_base st1 (blk_addr cur) = Done (blk_addr nxt)).
      { unfold get_next in *. rewrite <- Hn.
        apply (load_store_apart heap_base 8 8 st st1 (blk_addr cur) _ v Hst1).
        change (Z.of_nat 8) with 8. lia. }
      rewrite Hn1. cbn [bind].
      assert (Hnn1 : get_next heap_base st1 (blk_addr nxt) = Done nn).
      { unfold get_next in *. rewrite <- Hnx'.
        apply (load_store_apart heap_base 8 8 st st1 (blk_addr cur) _ v Hst1).
        change (Z.of_nat 8) with 8. lia. }
      rewrite Hnn1. cbn [bind].
      destruct (store_after_load heap_base 8 st1 (blk_addr cur + 8) _ nn Hn1) as (st2 & Hst2).
      unfold put_next. rewrite Hst2. cbn [bind].
      assert (Hheap : forall i,
                i < blk_addr cur - heap_base \/
                blk_addr cur - heap_base + HEADER_SIZE <= i ->
                heap st2 i = heap st i).
      { intros i Hi. unfold HEADER_SIZE in Hi.
        rewrite (store_heap_outside heap_base 8 st1 st2 _ nn i Hst2)
          by (change (Z.of_nat 8) with 8; lia).
        apply (store_heap_outside heap_base 8 st st1 _ v i Hst1).
        change (Z.of_nat 8) with 8; lia. }
      destruct (IH (absorb cur nxt) st2 fuel) as (st' & Hrun & Hl' & Hfl & Hpb & Hfr).
      * cbn [is_list absorb blk_addr blk_size blk_free].
        repeat split; auto.
        -- unfold get_size.
           rewrite (load_store_apart heap_base 8 8 st1 st2 _ _ nn Hst2)
             by (change (Z.of_nat 8) with 8; lia).
           rewrite (load_store_same heap_base 8 st st1 _ v Hst1).
           f_equal. unfold v. rewrite wrap_wrap, wrap_add_r.
           f_equal. lia.
        -- exists fc. split; [|exact Hbc].
           unfold get_free in *. rewrite <- Hfc.
           rewrite (load_store_apart heap_base 8 4 st1 st2 _ _ nn Hst2)
             by (change (Z.of_nat 8) with 8; change (Z.of_nat 4) with 4; lia).
           apply (load_store_apart heap_base 8 4 st st1 _ _ v Hst1).
           change (Z.of_nat 8) with 8; change (Z.of_nat 4) with 4; lia.
        -- exists nn. split.
           ++ unfold get_next in *.
              rewrite (load_store_same heap_base 8 st1 st2 _ nn Hst2).
              f_equal. exact (load_wrapped heap_base 8 st _ nn Hnx').
           ++ apply (is_list_frame rest st st2 nn); [|exact Hl].
              intros i Hi. apply Hheap.
              destruct (Z_lt_dec i (blk_addr cur - heap_base)); [now left|].
              destruct (Z_le_dec (blk_addr cur - heap_base + HEADER_SIZE) i);
                [now right|].
              exfalso. apply Hi.
              apply (outside_head_of_apart cur); [now inversion Hac|lia].
      * cbn [separated]. split; [|exact Hsep]. now inversion Hac.
      * lia.
      * exists st'. split; [exact Hrun|]. split; [exact Hl'|].
        apply store_globals in Hst1 as [Hp1 Hf1].
        apply store_globals in Hst2 as [Hp2 Hf2].
        split; [congruence|]. split; [congruence|].
        intros i Ho. inversion Ho as [|? ? Hc Ho']; subst.
        inversion Ho' as [|? ? _ Ho'']; subst.
        rewrite Hfr by (constructor; assumption).
        apply Hheap. exact Hc.
    + (* otherwise: advance to the neighbour *)
      destruct (IH nxt st fuel Hl1) as (st' & Hrun & Hl' & Hfl & Hpb & Hfr).
      * cbn [separated]. auto.
      * lia.
      * exists st'. split; [exact Hrun|].
        assert (Hcur : forall i,
                  blk_addr cur - heap_base <= i
                    < blk_addr cur - heap_base + HEADER_SIZE ->
                  heap st' i = heap st i).
        { intros i Hi. apply Hfr. now apply (outside_head_of_apart cur). }
        unfold HEADER_SIZE in Hcur.
        split; [|split; [exact Hfl|split; [exact Hpb|]]].
        -- cbn [is_list]. repeat split; auto.
           ++ unfold get_size. rewrite <- Hsz. apply load_frame.
              intros i Hi. apply Hcur. change (Z.of_nat 8) with 8 in Hi. lia.
           ++ exists fc. split; [|exact Hbc].
              unfold get_free. rewrite <- Hfc. apply load_frame.
              intros i Hi. apply Hcur. change (Z.of_nat 4) with 4 in Hi. lia.
           ++ exists (blk_addr nxt). split.
              ** unfold get_next. rewrite <- Hn. apply load_frame.
                 intros i Hi. apply Hcur. change (Z.of_nat 8) with 8 in Hi. lia.
              ** destruct rest; cbn [merge_pass] in Hl' |- *; exact Hl'.
        -- intros i Ho. apply Hfr. now inversion Ho.
Qed.

End Merger.

(** The size written is the plain sum whenever that fits in [size_t]. *)
Lemma absorb_plain (cur nxt : block) :
  0 <= blk_size cur -> 0 <= blk_size nxt ->
  blk_size cur + blk_size nxt + HEADER_SIZE < 2 ^ 64 ->
  blk_size (absorb cur nxt) = blk_size cur + blk_size nxt + HEADER_SIZE.
Proof.
  intros H0 H1 H2. cbn [absorb blk_size]. unfold wrap, HEADER_SIZE in *.
  apply Z.mod_small. lia.
Qed.

(** C2: on a free list whose headers share no byte, [merge_free_blocks]
    is the single forward pass of the specification, in list order: the
    chain it leaves is [merged l], where a pair of free list neighbours has
    become the first of the two with size
    [size + next.size + HEADER_SIZE] (in [size_t] arithmetic) and the second
    is unlinked, and any other pair is stepped over.  The addresses of the
    headers play no part.  The list head and the program break are kept,
    and no byte outside the headers of the list is written. *)
Theorem merge_free_blocks_list_order (heap_base : Z) (fuel : nat)
    (st : state) (l : list block) :
  is_list heap_base st (free_list st) l ->
  separated l ->
  (length l < fuel)%nat ->
  exists st',
    merge_free_blocks heap_base fuel st = Done st' /\
    is_list heap_base st' (free_list st') (merged l) /\
    free_list st' = free_list st /\
    program_break st' = program_break st /\
    (forall i, outside heap_base l i -> heap st' i = heap st i).
Proof.
  intros Hl Hsep Hfuel. unfold merge_free_blocks.
  destruct l as [|cur rest].
  - cbn [is_list] in Hl. rewrite Hl.
    destruct fuel as [|fuel]; [cbn in Hfuel; lia|].
    exists st. cbn. rewrite Hl. auto.
  - pose proof Hl as Hl0. cbn [is_list] in Hl0. destruct Hl0 as (Hp & _).
    rewrite Hp in Hl |- *.
    destruct (merge_loop_pass heap_base rest cur st fuel Hl Hsep)
      as (st' & Hrun & Hl' & Hfl & Hpb & Hfr).
    + cbn [length] in Hfuel. lia.
    + exists st'. rewrite Hfl, Hp. cbn [merged]. auto.
Qed.

(** ** Requests whose size arithmetic does not wrap around *)

Ltac zsizes :=
  change (Z.of_nat 8) with 8 in *; change (Z.of_nat 4) with 4 in *;
  change (8 * 8) with 64 in *; change (8 * 4) with 32 in *.

Section NoWrap.

Variable heap_base : Z.
Hypothesis heap_base_pos : 0 < heap_base.
Hypothesis heap_in_address_space : heap_base + HEAP_SIZE < 2 ^ 64.

Lemma store_ok (n : nat) (st : state) (a v : Z) :
  in_heap heap_base a (Z.of_nat n) = true ->
  exists st', store heap_base n st a v = Done st'.
Proof. intros Hin. rewrite store_in_heap by exact Hin. eauto. Qed.

Lemma load_ok (n : nat) (st : state) (a : Z) :
  in_heap heap_base a (Z.of_nat n) = true ->
  exists v, load heap_base n st a = Done v /\ 0 <= v < 2 ^ (8 * Z.of_nat n).
Proof.
  intros Hin. rewrite load_in_heap by exact Hin.
  eexists. split; [reflexivity|]. apply le_load_bound.
Qed.

Ltac through H :=
  rewrite (load_store_apart heap_base _ _ _ _ _ _ _ H) by (zsizes; lia).

(** A block too small to be divided is left as it is. *)
Lemma split_block_whole (st : state) (block size bsz : Z) :
  0 <= size ->
  size + HEADER_SIZE + WORD < 2 ^ 64 ->
  get_size heap_base st block = Done bsz ->
  bsz < size + HEADER_SIZE + WORD ->
  split_block heap_base st block size = Done st.
Proof.
  intros Hs Hw Hsz Hlt. unfold split_block. rewrite Hsz. cbn [bind].
  unfold wrap, HEADER_SIZE, WORD in *.
  rewrite (Z.mod_small (size + 24)) by lia.
  rewrite (Z.mod_small (size + 24 + 8)) by lia.
  replace (size + 24 + 8 <=? bsz) with false by (symmetry; apply Z.leb_gt; lia).
  reflexivity.
Qed.

(** A block large enough, whose remainder header lies in the array, is
    divided as section 4.3 of the specification says. *)
Lemma split_block_divides (st : state) (block size bsz : Z) :
  let new_block := block + HEADER_SIZE + size in
  0 <= size ->
  0 <= free_list st < 2 ^ 64 ->
  in_heap heap_base block HEADER_SIZE = true ->
  in_heap heap_base new_block HEADER_SIZE = true ->
  get_size heap_base st block = Done bsz ->
  size + HEADER_SIZE + WORD <= bsz ->
  exists st',
    split_block heap_base st block size = Done st' /\
    get_size heap_base st' new_block = Done (bsz - size - HEADER_SIZE) /\
    get_free heap_base st' new_block = Done 1 /\
    get_next heap_base st' new_block = Done (free_list st) /\
    free_list st' = new_block /\
    get_size heap_base st' block = Done size /\
    get_free heap_base st' block = get_free heap_base st block /\
    program_break st' = program_break st.
Proof.
  intros nb Hs Hfl Hib Hin Hsz Hle. subst nb.
  apply in_heap_true in Hib. apply in_heap_true in Hin.
  pose proof (load_done heap_base 8 st _ _ Hsz) as [_ Hb].
  pose proof (le_load_bound 8 (heap st) (block - heap_base)) as Hbound.
  rewrite <- Hb in Hbound. clear Hb.
  unfold HEADER_SIZE, WORD in *. zsizes.
  assert (Hi1 : in_heap heap_base (block + 24 + size) (Z.of_nat 8) = true)
    by (apply in_heap_true; zsizes; lia).
  assert (Hi2 : in_heap heap_base (block + 24 + size + 16) (Z.of_nat 4) = true)
    by (apply in_heap_true; zsizes; lia).
  assert (Hi3 : in_heap heap_base (block + 24 + size + 8) (Z.of_nat 8) = true)
    by (apply in_heap_true; zsizes; lia).
  assert (Hi4 : in_heap heap_base block (Z.of_nat 8) = true)
    by (apply in_heap_true; zsizes; lia).
  assert (Hi5 : in_heap heap_base (block + 8) (Z.of_nat 8) = true)
    by (apply in_heap_true; zsizes; lia).
  unfold split_block. rewrite Hsz. cbn [bind].
  unfold wrap, HEADER_SIZE, WORD.
  rewrite (Z.mod_small (size + 24)) by lia.
  rewrite (Z.mod_small (size + 24 + 8)) by lia.
  replace (size + 24 + 8 <=? bsz) with true by (symmetry; apply Z.leb_le; lia).
  rewrite (Z.mod_small (block + 24)) by lia.
  rewrite (Z.mod_small (block + 24 + size)) by lia.
  rewrite (Z.mod_small (bsz - size)) by lia.
  rewrite (Z.mod_small (bsz - size - 24)) by lia.
  unfold put_size, put_free, put_next, get_next, get_size, get_free,
    add_to_free_list.
  destruct (store_ok 8 st _ (bsz - size - 24) Hi1) as (s1 & H1).
  rewrite H1. cbn [bind].
  destruct (store_ok 4 s1 _ 1 Hi2) as (s2 & H2).
  rewrite H2. cbn [bind].
  destruct (load_ok 8 s2 _ Hi5) as (nx & Hnx & _).
  rewrite Hnx. cbn [bind].
  destruct (store_ok 8 s2 _ nx Hi3) as (s3 & H3).
  rewrite H3. cbn [bind].
  destruct (store_ok 8 s3 _ size Hi4) as (s4 & H4).
  rewrite H4. cbn [bind].
  destruct (store_ok 8 s4 _ (block + 24 + size) Hi5) as (s5 & H5).
  rewrite H5. cbn [bind].
  destruct (store_ok 8 s5 _ (free_list s5) Hi3) as (s6 & H6).
  unfold put_next. rewrite H6. cbn [bind].
  exists (set_free_list s6 (block + 24 + size)).
  pose proof (store_globals heap_base _ _ _ _ _ H1) as [P1 F1].
  pose proof (store_globals heap_base _ _ _ _ _ H2) as [P2 F2].
  pose proof (store_globals heap_base _ _ _ _ _ H3) as [P3 F3].
  pose proof (store_globals heap_base _ _ _ _ _ H4) as [P4 F4].
  pose proof (store_globals heap_base _ _ _ _ _ H5) as [P5 F5].
  pose proof (store_globals heap_base _ _ _ _ _ H6) as [P6 F6].
  split; [reflexivity|].
  rewrite !load_set_free_list.
  repeat split.
  - through H6. through H5. through H4. through H3. through H2.
    rewrite (load_store_same heap_base 8 st s1 _ _ H1).
    f_equal. apply Z.mod_small. zsizes. lia.
  - through H6. through H5. through H4. through H3.
    rewrite (load_store_same heap_base 4 s1 s2 _ _ H2). reflexivity.
  - rewrite (load_store_same heap_base 8 s5 s6 _ _ H6).
    f_equal. zsizes. rewrite Z.mod_small; [congruence|].
    replace (free_list s5) with (free_list st) by congruence. lia.
  - through H6. through H5.
    rewrite (load_store_same heap_base 8 s3 s4 _ _ H4).
    f_equal. apply Z.mod_small. zsizes. lia.
  - through H6. through H5. through H4. through H3. through H2. through H1.
    reflexivity.
  - cbn [program_break set_free_list]. congruence.
Qed.

Lemma MIN_BLOCK_SIZE_value : MIN_BLOCK_SIZE = 32.
Proof. reflexivity. Qed.

(** Growth for a request whose sums stay below [2^64]: NULL exactly when
    the chunk does not fit between the break and the end of the array;
    otherwise a header flagged allocated at the old break, the break
    advanced by the chunk, and the list head either kept or replaced by
    the remainder of the split, which links to the old head. *)
Lemma grow_within_bounds (st : state) (size : Z) :
  let chunk := Z.max (size + HEADER_SIZE) (1024 * 16) in
  0 <= size ->
  size + HEADER_SIZE + WORD < 2 ^ 64 ->
  program_break st + chunk < 2 ^ 64 ->
  break_in_arena heap_base st ->
  0 <= free_list st < 2 ^ 64 ->
  (HEAP_SIZE < program_break st - heap_base + chunk ->
     grow heap_base st size = Done (st, NULL)) /\
  (program_break st - heap_base + chunk <= HEAP_SIZE ->
     exists st' sz,
       grow heap_base st size = Done (st', program_break st) /\
       program_break st' = program_break st + chunk /\
       get_free heap_base st' (program_break st) = Done 0 /\
       get_size heap_base st' (program_break st) = Done sz /\ size <= sz /\
       (free_list st' = free_list st \/
        free_list st' = program_break st + HEADER_SIZE + size /\
        get_next heap_base st' (free_list st') = Done (free_list st))).
Proof.
  intros chunk Hs Hw Hnw [Hlo Hhi] Hfl.
  assert (Hchunk :
    (if wrap (size + HEADER_SIZE) <? 1024 * 16
     then 1024 * 16 else wrap (size + HEADER_SIZE)) = chunk).
  { unfold chunk, wrap, HEADER_SIZE, WORD in *.
    rewrite Z.mod_small by lia.
    destruct (size + 24 <? 1024 * 16) eqn:E;
      [apply Z.ltb_lt in E | apply Z.ltb_ge in E]; lia. }
  assert (Hc : 1024 * 16 <= chunk /\ size + HEADER_SIZE <= chunk)
    by (unfold chunk; lia).
  assert (W1 : wrap (program_break st + chunk) = program_break st + chunk)
    by (apply Z.mod_small; lia).
  assert (W2 : wrap (heap_base + HEAP_SIZE) = heap_base + HEAP_SIZE)
    by (apply Z.mod_small; unfold HEAP_SIZE in *; lia).
  assert (W3 : wrap (chunk - HEADER_SIZE) = chunk - HEADER_SIZE)
    by (apply Z.mod_small; unfold HEADER_SIZE in *; lia).
  assert (W4 : wrap (size + 32) = size + 32)
    by (apply Z.mod_small; unfold HEADER_SIZE, WORD in *; lia).
  unfold grow. rewrite Hchunk, W1, W2, W3.
  split.
  - intros Hover.
    replace (program_break st + chunk >? heap_base + HEAP_SIZE) with true
      by (symmetry; apply Z.gtb_lt; lia).
    reflexivity.
  - intros Hfit.
    replace (program_break st + chunk >? heap_base + HEAP_SIZE) with false
      by (symmetry; rewrite Z.gtb_ltb; apply Z.ltb_ge; lia).
    set (brk := program_break st) in *.
    unfold HEADER_SIZE, WORD in *.
    assert (Hi1 : in_heap heap_base brk (Z.of_nat 8) = true)
      by (apply in_heap_true; zsizes; lia).
    assert (Hi2 : in_heap heap_base (brk + 16) (Z.of_nat 4) = true)
      by (apply in_heap_true; zsizes; lia).
    assert (Hi3 : in_heap heap_base (brk + 8) (Z.of_nat 8) = true)
      by (apply in_heap_true; zsizes; lia).
    unfold put_size, put_free, put_next.
    destruct (store_ok 8 st _ (chunk - 24) Hi1) as (s1 & H1).
    rewrite H1. cbn [bind].
    destruct (store_ok 4 s1 _ 0 Hi2) as (s2 & H2).
    rewrite H2. cbn [bind].
    destruct (store_ok 8 s2 _ NULL Hi3) as (s3 & H3).
    rewrite H3. cbn [bind].
    pose proof (store_globals heap_base _ _ _ _ _ H1) as [P1 F1].
    pose proof (store_globals heap_base _ _ _ _ _ H2) as [P2 F2].
    pose proof (store_globals heap_base _ _ _ _ _ H3) as [P3 F3].
    replace (program_break s3) with brk by (unfold brk; congruence).
    rewrite W1.
    set (st4 := set_program_break s3 (brk + chunk)).
    assert (Hsz4 : get_size heap_base st4 brk = Done (chunk - 24)).
    { unfold get_size, st4. rewrite load_set_program_break.
      through H3. through H2.
      rewrite (load_store_same heap_base 8 st s1 _ _ H1).
      f_equal. apply Z.mod_small. zsizes. lia. }
    assert (Hfr4 : get_free heap_base st4 brk = Done 0).
    { unfold get_free, st4. rewrite load_set_program_break.
      through H3.
      rewrite (load_store_same heap_base 4 s1 s2 _ _ H2). reflexivity. }
    rewrite Hsz4. cbn [bind].
    rewrite MIN_BLOCK_SIZE_value, W4.
    destruct (chunk - 24 >? size + 32) eqn:Hsplit.
    + apply Z.gtb_lt in Hsplit.
      destruct (split_block_divides st4 brk size (chunk - 24)) as
        (st' & Hrun & Hnsz & Hnfr & Hnnx & Hnfl & Hbsz & Hbfr & Hbpb);
        unfold HEADER_SIZE, WORD; try lia.
      * cbn [free_list st4 set_program_break]. lia.
      * apply in_heap_true. lia.
      * apply in_heap_true. lia.
      * exact Hsz4.
      * rewrite Hrun. cbn [bind]. exists st', size.
        split; [reflexivity|]. split; [rewrite Hbpb; reflexivity|].
        split; [rewrite Hbfr; exact Hfr4|]. split; [exact Hbsz|].
        split; [lia|]. right. unfold HEADER_SIZE in *.
        split; [exact Hnfl|]. rewrite Hnfl, Hnnx.
        cbn [free_list st4 set_program_break]. congruence.
    + rewrite Z.gtb_ltb in Hsplit. apply Z.ltb_ge in Hsplit.
      exists st4, (chunk - 24).
      split; [reflexivity|]. split; [reflexivity|].
      split; [exact Hfr4|]. split; [exact Hsz4|]. split; [lia|].
      left. cbn [free_list st4 set_program_break]. congruence.
Qed.

End NoWrap.

(** ** The program break under requests that do not wrap around *)

Lemma land_ldiff_comm (y a b : Z) :
  Z.land y (Z.ldiff a b) = Z.ldiff (Z.land y a) b.
Proof.
  apply Z.bits_inj'. intros n Hn.
  rewrite Z.land_spec, !Z.ldiff_spec, Z.land_spec.
  now rewrite andb_assoc.
Qed.

(** ALIGN rounds up to a multiple of the word size. *)
Lemma ALIGN_value (x : Z) : ALIGN x = 8 * (wrap (x + 7) / 8).
Proof.
  unfold ALIGN, WORD.
  replace (x + 8 - 1) with (x + 7) by lia.
  change (wrap (Z.lnot (8 - 1))) with (Z.ldiff (Z.ones 64) (Z.ones 3)).
  rewrite land_ldiff_comm, Z.land_ones by lia.
  unfold wrap. rewrite Z.mod_mod by lia.
  rewrite Z.ldiff_ones_r by lia.
  rewrite Z.shiftr_div_pow2, Z.shiftl_mul_pow2 by lia.
  change (2 ^ 3) with 8. lia.
Qed.

Lemma ALIGN_bounds (x : Z) :
  0 <= x -> x + 7 < 2 ^ 64 -> x <= ALIGN x <= x + 7.
Proof.
  intros H0 H1. rewrite ALIGN_value. unfold wrap.
  rewrite Z.mod_small by lia.
  pose proof (Z.div_mod (x + 7) 8 ltac:(lia)).
  pose proof (Z.mod_pos_bound (x + 7) 8 ltac:(lia)). lia.
Qed.

Section Break.

Variable heap_base : Z.
Hypothesis heap_base_pos : 0 < heap_base.
Hypothesis heap_low : heap_base + HEAP_SIZE <= 2 ^ 63.

Ltac globals :=
  unfold put_size, put_next, put_free in *;
  repeat match goal with
         | H : store _ _ _ _ _ = Done _ |- _ =>
             apply store_globals in H as [? _]
         end.

Lemma add_to_free_list_break (st st' : state) (block : Z) :
  add_to_free_list heap_base st block = Done st' ->
  program_break st' = program_break st.
Proof.
  unfold add_to_free_list. intros E. bind_inv E. inversion E; subst.
  apply store_globals in E0 as [P _]. exact P.
Qed.

Lemma split_block_break (st st' : state) (block size : Z) :
  split_block heap_base st block size = Done st' ->
  program_break st' = program_break st.
Proof.
  unfold split_block. intros E. bind_inv E.
  destruct (_ <=? a).
  - do 7 bind_inv E.
    apply add_to_free_list_break in E.
    globals. congruence.
  - inversion E. reflexivity.
Qed.

Lemma merge_loop_break (fuel : nat) :
  forall (st st' : state) (current : Z),
  merge_loop heap_base fuel st current = Done st' ->
  program_break st' = program_break st.
Proof.
  induction fuel as [|fuel IH]; intros st st' current E;
    cbn [merge_loop] in E; [discriminate|].
  destruct (current =? NULL); [inversion E; reflexivity|].
  bind_inv E. destruct (a =? NULL); [inversion E; reflexivity|].
  do 2 bind_inv E. destruct a1.
  - do 7 bind_inv E. apply IH in E.
    globals. congruence.
  - bind_inv E. now apply IH in E.
Qed.

Lemma HmmFree_break (fuel : nat) (st st' : state) (ptr : Z) :
  HmmFree heap_base fuel st ptr = Done st' ->
  program_break st' = program_break st.
Proof.
  unfold HmmFree. destruct (ptr =? NULL); intros E;
    [inversion E; reflexivity|].
  do 2 bind_inv E. apply merge_loop_break in E.
  apply add_to_free_list_break in E1.
  globals. congruence.
Qed.

Lemma grow_break (st st' : state) (size p : Z) :
  0 <= size <= 2 ^ 62 + 7 ->
  break_in_arena heap_base st ->
  grow heap_base st size = Done (st', p) ->
  break_in_arena heap_base st' /\ program_break st <= program_break st'.
Proof.
  intros Hs [Hlo Hhi]. unfold grow.
  unfold HEADER_SIZE, HEAP_SIZE in *.
  assert (W0 : wrap (size + 24) = size + 24) by (apply Z.mod_small; lia).
  rewrite W0.
  set (chunk := if size + 24 <? 1024 * 16 then 1024 * 16 else size + 24).
  assert (Hc : 0 <= chunk <= 2 ^ 62 + 1024 * 16).
  { unfold chunk. destruct (size + 24 <? 1024 * 16) eqn:E;
      [apply Z.ltb_lt in E | apply Z.ltb_ge in E]; lia. }
  assert (W1 : wrap (program_break st + chunk) = program_break st + chunk)
    by (apply Z.mod_small; lia).
  assert (W2 : wrap (heap_base + 1024 * 1024) = heap_base + 1024 * 1024)
    by (apply Z.mod_small; lia).
  rewrite W1, W2.
  destruct (program_break st + chunk >? heap_base + 1024 * 1024) eqn:Hchk.
  - intros E; inversion E; subst. unfold break_in_arena, HEAP_SIZE. lia.
  - rewrite Z.gtb_ltb in Hchk. apply Z.ltb_ge in Hchk.
    intros E. do 3 bind_inv E.
    globals.
    replace (program_break a1) with (program_break st) in * by congruence.
    rewrite W1 in E. bind_inv E.
    assert (Hfin : forall s, program_break s = program_break st + chunk ->
              break_in_arena heap_base s /\ program_break st <= program_break s).
    { intros s Hsb. unfold break_in_arena, HEAP_SIZE. lia. }
    destruct (a2 >? _).
    + bind_inv E. inversion E; subst. apply Hfin.
      match goal with
      | H : split_block _ _ _ _ = Done _ |- _ =>
          apply split_block_break in H; rewrite H
      end. reflexivity.
    + inversion E; subst. apply Hfin. reflexivity.
Qed.

Lemma find_loop_break (fuel : nat) :
  forall (st st' : state) (size current prev p : Z),
  0 <= size <= 2 ^ 62 + 7 ->
  break_in_arena heap_base st ->
  find_loop heap_base fuel st size current prev = Done (st', p) ->
  break_in_arena heap_base st' /\ program_break st <= program_break st'.
Proof.
  induction fuel as [|fuel IH]; intros st st' size current prev p Hs Hb E;
    cbn [find_loop] in E; [discriminate|].
  destruct (current =? NULL); [now apply (grow_break st st' size p)|].
  do 2 bind_inv E. destruct a0.
  - do 3 bind_inv E. inversion E; subst.
    match goal with
    | H : split_block _ _ _ _ = Done _ |- _ =>
        apply split_block_break in H; rename H into Hsplit
    end.
    assert (P : program_break a1 = program_break st).
    { destruct (prev =? NULL).
      - match goal with
        | H : Done _ = Done a1 |- _ => inversion H
        end. reflexivity.
      - globals. congruence. }
    unfold break_in_arena in *. rewrite Hsplit, P. lia.
  - bind_inv E. now apply (IH st st' size a0 current p).
Qed.

Lemma HmmAlloc_break (fuel : nat) (st st' : state) (size p : Z) :
  modest size ->
  break_in_arena heap_base st ->
  HmmAlloc heap_base fuel st size = Done (st', p) ->
  break_in_arena heap_base st' /\ program_break st <= program_break st'.
Proof.
  intros [H0 H1] Hb. unfold HmmAlloc.
  destruct (size =? 0).
  - intros E; inversion E; subst. split; [exact Hb|lia].
  - intros E. bind_inv E. destruct a as [st1 block].
    pose proof (ALIGN_bounds size H0 ltac:(lia)) as Ha.
    apply find_loop_break in E0; [|lia|exact Hb].
    destruct (block =? NULL).
    + inversion E; subst. exact E0.
    + bind_inv E. inversion E; subst.
      globals.
      unfold break_in_arena in *.
      replace (program_break st') with (program_break st1) by congruence.
      exact E0.
Qed.

(** For every sequence of calls whose requests are modest, the break
    stays in the array and never moves back. *)
Lemma run_break (fuel : nat) (ops : list call) :
  forall (st st' : state) (live live' : list Z),
  Forall (fun op => match op with
                    | Allocate size => modest size
                    | Release _ => True
                    end) ops ->
  break_in_arena heap_base st ->
  run heap_base fuel (st, live) ops = Done (st', live') ->
  break_in_arena heap_base st' /\ program_break st <= program_break st'.
Proof.
  induction ops as [|op ops IH]; intros st st' live live' Hm Hb E.
  - inversion E; subst. split; [exact Hb|lia].
  - cbn [run] in E. bind_inv E. destruct a as [st1 live1].
    inversion Hm as [|? ? Hop Hrest]; subst.
    assert (H1 : break_in_arena heap_base st1 /\
                 program_break st <= program_break st1).
    { destruct op as [size|k]; cbn [run_call] in E0.
      - bind_inv E0. destruct a as [s q]. inversion E0; subst.
        now apply (HmmAlloc_break fuel st st1 size q).
      - destruct (nth_error live k).
        + bind_inv E0. inversion E0; subst.
          apply HmmFree_break in E1. unfold break_in_arena in *.
          rewrite E1. split; [exact Hb|lia].
        + inversion E0; subst. split; [exact Hb|lia]. }
    destruct H1 as [Hb1 Hle1].
    destruct (IH st1 st' live1 live' Hrest Hb1 E) as [Hb' Hle'].
    split; [exact Hb'|lia].
Qed.

End Break.

(** ** A free list that runs in a circle *)

Section Circle.

Variable heap_base : Z.

Ltac z8 := change (Z.of_nat 8) with 8 in *; change (Z.of_nat 4) with 4 in *.

(** A free block that is its own list neighbour is absorbed into itself
    for ever. *)
Lemma merge_loop_spins (fuel : nat) :
  forall (st : state) (a fr sz : Z),
  a <> NULL ->
  get_next heap_base st a = Done a ->
  get_free heap_base st a = Done fr -> fr <> 0 ->
  get_size heap_base st a = Done sz ->
  merge_loop heap_base fuel st a = Timeout.
Proof.
  induction fuel as [|fuel IH]; intros st a fr sz Ha Hnx Hfr Hfr0 Hsz;
    [reflexivity|].
  cbn [merge_loop].
  replace (a =? NULL) with false by (symmetry; now apply Z.eqb_neq).
  rewrite Hnx. cbn [bind].
  replace (a =? NULL) with false by (symmetry; now apply Z.eqb_neq).
  rewrite Hfr. cbn [bind].
  replace (fr =? 0) with false by (symmetry; now apply Z.eqb_neq).
  cbn [bind negb]. rewrite Hsz. cbn [bind].
  set (v := wrap (sz + wrap (sz + HEADER_SIZE))).
  destruct (store_after_load heap_base 8 st a _ v Hsz) as (st1 & Hst1).
  unfold put_size. rewrite Hst1. cbn [bind].
  assert (Hn1 : get_next heap_base st1 a = Done a).
  { unfold get_next in *. rewrite <- Hnx.
    apply (load_store_apart heap_base 8 8 st st1 a _ v Hst1). z8. lia. }
  rewrite Hn1. cbn [bind]. rewrite Hn1. cbn [bind].
  destruct (store_after_load heap_base 8 st1 (a + 8) _ a Hn1) as (st2 & Hst2).
  unfold put_next. rewrite Hst2. cbn [bind].
  apply (IH st2 a fr (v mod 2 ^ (8 * Z.of_nat 8))); auto.
  - unfold get_next. rewrite (load_store_same heap_base 8 st1 st2 _ a Hst2).
    f_equal. exact (load_wrapped heap_base 8 st _ a Hnx).
  - unfold get_free in *. rewrite <- Hfr.
    rewrite (load_store_apart heap_base 8 4 st1 st2 _ _ a Hst2) by (z8; lia).
    apply (load_store_apart heap_base 8 4 st st1 _ _ v Hst1). z8. lia.
  - unfold get_size.
    rewrite (load_store_apart heap_base 8 8 st1 st2 _ _ a Hst2) by (z8; lia).
    apply (load_store_same heap_base 8 st st1 _ v Hst1).
Qed.

(** Two free blocks that are each other's list neighbour: the first
    absorbs the second and inherits its link, back to itself. *)
Lemma merge_loop_two_cycle (st : state) (a c fa fc sa sc : Z) :
  a <> NULL -> c <> NULL ->
  a + HEADER_SIZE <= c \/ c + HEADER_SIZE <= a ->
  get_next heap_base st a = Done c ->
  get_next heap_base st c = Done a ->
  get_free heap_base st a = Done fa -> fa <> 0 ->
  get_free heap_base st c = Done fc -> fc <> 0 ->
  get_size heap_base st a = Done sa ->
  get_size heap_base st c = Done sc ->
  forall fuel : nat, merge_loop heap_base fuel st a = Timeout.
Proof.
  intros Ha Hc Hap Hna Hnc Hfa Hfa0 Hfc Hfc0 Hsa Hsc fuel.
  unfold HEADER_SIZE in Hap.
  destruct fuel as [|fuel]; [reflexivity|].
  cbn [merge_loop].
  replace (a =? NULL) with false by (symmetry; now apply Z.eqb_neq).
  rewrite Hna. cbn [bind].
  replace (c =? NULL) with false by (symmetry; now apply Z.eqb_neq).
  rewrite Hfa. cbn [bind].
  replace (fa =? 0) with false by (symmetry; now apply Z.eqb_neq).
  rewrite Hfc. cbn [bind].
  replace (fc =? 0) with false by (symmetry; now apply Z.eqb_neq).
  cbn [negb]. rewrite Hsa. cbn [bind]. rewrite Hsc. cbn [bind].
  set (v := wrap (sa + wrap (sc + HEADER_SIZE))).
  destruct (store_after_load heap_base 8 st a _ v Hsa) as (st1 & Hst1).
  unfold put_size. rewrite Hst1. cbn [bind].
  assert (Hn1 : get_next heap_base st1 a = Done c).
  { unfold get_next in *. rewrite <- Hna.
    apply (load_store_apart heap_base 8 8 st st1 a _ v Hst1). z8. lia. }
  rewrite Hn1. cbn [bind].
  assert (Hn2 : get_next heap_base st1 c = Done a).
  { unfold get_next in *. rewrite <- Hnc.
    apply (load_store_apart heap_base 8 8 st st1 a _ v Hst1). z8. lia. }
  rewrite Hn2. cbn [bind].
  destruct (store_after_load heap_base 8 st1 (a + 8) _ a Hn1) as (st2 & Hst2).
  unfold put_next. rewrite Hst2. cbn [bind].
  apply (merge_loop_spins fuel st2 a fa (v mod 2 ^ (8 * Z.of_nat 8))); auto.
  - unfold get_next. rewrite (load_store_same heap_base 8 st1 st2 _ a Hst2).
    f_equal. exact (load_wrapped heap_base 8 st _ a Hnc).
  - unfold get_free in *. rewrite <- Hfa.
    rewrite (load_store_apart heap_base 8 4 st1 st2 _ _ a Hst2) by (z8; lia).
    apply (load_store_apart heap_base 8 4 st st1 _ _ v Hst1). z8. lia.
  - unfold get_size.
    rewrite (load_store_apart heap_base 8 8 st1 st2 _ _ a Hst2) by (z8; lia).
    apply (load_store_same heap_base 8 st st1 _ v Hst1).
Qed.

(** Freeing the block that the head of the free list links to: HmmFree
    puts the block in front of that head, and the merger then runs in the
    circle of the two. *)
Lemma HmmFree_never_returns (st : state) (ptr c fc sc : Z) :
  0 < heap_base ->
  heap_base + HEAP_SIZE <= 2 ^ 64 ->
  in_heap heap_base (ptr - HEADER_SIZE) HEADER_SIZE = true ->
  free_list st = c ->
  ptr - HEADER_SIZE + HEADER_SIZE <= c \/ c + HEADER_SIZE <= ptr - HEADER_SIZE ->
  get_next heap_base st c = Done (ptr - HEADER_SIZE) ->
  get_free heap_base st c = Done fc -> fc <> 0 ->
  get_size heap_base st c = Done sc ->
  forall fuel : nat, HmmFree heap_base fuel st ptr = Timeout.
Proof.
  intros Hb Htop Hin Hfl Hap Hnc Hfc Hfc0 Hsc fuel.
  set (b := ptr - HEADER_SIZE) in *.
  apply in_heap_true in Hin. unfold HEADER_SIZE in Hin, Hap.
  pose proof (load_done heap_base 8 st _ _ Hnc) as [Hcin _].
  pose proof (load_done heap_base 8 st _ _ Hsc) as [Hcin' _].
  apply in_heap_true in Hcin. apply in_heap_true in Hcin'. z8.
  assert (Hc0 : c <> NULL) by (unfold NULL; lia).
  unfold HmmFree.
  replace (ptr =? NULL) with false
    by (symmetry; apply Z.eqb_neq; unfold NULL, b, HEADER_SIZE in *; lia).
  fold b.
  assert (Hi4 : in_heap heap_base (b + 16) (Z.of_nat 4) = true)
    by (apply in_heap_true; z8; lia).
  unfold put_free. rewrite (store_in_heap heap_base 4 st _ 1 Hi4). cbn [bind].
  set (st1 := set_heap st _).
  assert (Hst1 : store heap_base 4 st (b + 16) 1 = Done st1)
    by (apply store_in_heap; exact Hi4).
  unfold add_to_free_list.
  assert (Hi8 : in_heap heap_base (b + 8) (Z.of_nat 8) = true)
    by (apply in_heap_true; z8; lia).
  unfold put_next. rewrite (store_in_heap heap_base 8 st1 _ _ Hi8). cbn [bind].
  set (st2 := set_heap st1 _).
  assert (Hst2 : store heap_base 8 st1 (b + 8) (free_list st1) = Done st2)
    by (apply store_in_heap; exact Hi8).
  unfold merge_free_blocks. cbn [free_list set_free_list].
  assert (Hsb : exists sb, get_size heap_base st2 b = Done sb).
  { unfold get_size. rewrite load_in_heap; [eauto|]. apply in_heap_true. z8. lia. }
  destruct Hsb as (sb & Hsb).
  apply (merge_loop_two_cycle (set_free_list st2 b) b c 1 fc sb sc);
    auto; try (unfold NULL; lia).
  - unfold get_next. rewrite load_set_free_list.
    rewrite (load_store_same heap_base 8 st1 st2 _ _ Hst2).
    f_equal. cbn [free_list st1 set_heap]. rewrite Hfl.
    apply Z.mod_small. z8. change (2 ^ (8 * 8)) with (2 ^ 64). lia.
  - unfold get_next in *. rewrite load_set_free_list. rewrite <- Hnc.
    rewrite (load_store_apart heap_base 8 8 st1 st2 _ _ _ Hst2) by (z8; lia).
    apply (load_store_apart heap_base 4 8 st st1 _ _ 1 Hst1). z8. lia.
  - unfold get_free. rewrite load_set_free_list.
    rewrite (load_store_apart heap_base 8 4 st1 st2 _ _ _ Hst2) by (z8; lia).
    apply (load_store_same heap_base 4 st st1 _ 1 Hst1).
  - unfold get_free in *. rewrite load_set_free_list. rewrite <- Hfc.
    rewrite (load_store_apart heap_base 8 4 st1 st2 _ _ _ Hst2) by (z8; lia).
    apply (load_store_apart heap_base 4 4 st st1 _ _ 1 Hst1). z8. lia.
  - unfold get_size in *. rewrite load_set_free_list. rewrite <- Hsc.
    rewrite (load_store_apart heap_base 8 8 st1 st2 _ _ _ Hst2) by (z8; lia).
    apply (load_store_apart heap_base 4 8 st st1 _ _ 1 Hst1). z8. lia.
Qed.

End Circle.

(** * Concrete runs *)

(** A run that ends is the pair of its final state and its answer. *)
Lemma done_state_of (heap_base : Z) {A : Type} (o : outcome (state * A)) (x : A) :
  outcome_map snd o = Done x -> o = Done (state_of heap_base o, x).
Proof.
  destruct o as [[st a]| |]; cbn; intros E; inversion E; reflexivity.
Qed.

Lemma done_final (heap_base : Z) (o : outcome state) :
  outcome_map (fun _ => tt) o = Done tt -> o = Done (final heap_base o).
Proof. destruct o; cbn; intros E; inversion E; reflexivity. Qed.

(** ** The theorems above on concrete states *)

Lemma merge_free_blocks_list_order_witness :
  exists st',
    merge_free_blocks heap_at 4 three_blocks = Done st' /\
    is_list heap_at st' (free_list st')
      [mkBlock (heap_at + 1000) 48 true; mkBlock (heap_at + 2000) 32 false] /\
    free_list st' = free_list three_blocks /\
    program_break st' = program_break three_blocks /\
    (forall i,
       outside heap_at
         [mkBlock (heap_at + 1000) 8 true; mkBlock heap_at 16 true;
          mkBlock (heap_at + 2000) 32 false] i ->
       heap st' i = heap three_blocks i).
Proof.
  apply (merge_free_blocks_list_order heap_at 4 three_blocks
           [mkBlock (heap_at + 1000) 8 true; mkBlock heap_at 16 true;
            mkBlock (heap_at + 2000) 32 false]).
  - cbn [is_list blk_addr blk_size blk_free].
    repeat (split; [vm_compute; congruence|]).
    split; [exists 1; split; reflexivity|].
    exists heap_at.
    repeat (split; [vm_compute; congruence|]).
    split; [exists 1; split; reflexivity|].
    exists (heap_at + 2000).
    repeat (split; [vm_compute; congruence|]).
    split; [exists 0; split; reflexivity|].
    exists NULL. split; reflexivity.
  - cbn [separated]. unfold apart, heap_at, HEADER_SIZE. cbn [blk_addr].
    repeat (first [apply Forall_nil | apply Forall_cons | split]);
      first [exact I | cbn; lia].
  - cbn. lia.
Defined.

Lemma find_free_block_first_fit_witness :
  exists st1,
    unlink heap_at three_blocks (Some (heap_at + 1000)) (heap_at + 2000) =
      Done st1 /\
    (get_next heap_at st1 (heap_at + 1000) = Done (heap_at + 2000) /\
     free_list st1 = free_list three_blocks) /\
    find_free_block heap_at 2 three_blocks 10 =
    (st2 <- split_block heap_at st1 heap_at 10 ;; Done (st2, heap_at)).
Proof.
  refine (proj2 (find_free_block_first_fit heap_at 2 three_blocks 10 heap_at
                   [heap_at + 1000] _ _ _) (heap_at + 2000) _ _).
  - cbn [segment]. split; [reflexivity|].
    exists heap_at. split; reflexivity.
  - constructor; [|constructor].
    split; [vm_compute; congruence|].
    exists 1. split; [reflexivity|]. right.
    exists 8. split; [reflexivity|lia].
  - cbn. lia.
  - split; [vm_compute; congruence|].
    exists 1, 16. repeat split; try reflexivity; lia.
  - reflexivity.
Defined.

Lemma HmmAlloc_failure_leaves_state_witness :
  state_of heap_at (HmmAlloc heap_at 4 after_stray_calls (1024 * 1024)) =
  after_stray_calls.
Proof.
  apply (HmmAlloc_failure_leaves_state heap_at 4 after_stray_calls
           (state_of heap_at (HmmAlloc heap_at 4 after_stray_calls (1024 * 1024)))
           (1024 * 1024)).
  - unfold heap_at. lia.
  - lia.
  - apply done_state_of. vm_compute. reflexivity.
Defined.

Lemma HmmAlloc_zero_is_null_witness :
  HmmAlloc heap_at 4 after_stray_calls (1024 * 1024) =
  HmmAlloc heap_at 0 after_stray_calls 0.
Proof.
  refine (proj2 (HmmAlloc_zero_is_null heap_at) 4%nat after_stray_calls
            (state_of heap_at (HmmAlloc heap_at 4 after_stray_calls (1024 * 1024)))
            (1024 * 1024) _ _ _).
  - unfold heap_at. lia.
  - lia.
  - apply done_state_of. vm_compute. reflexivity.
Defined.

(** The run of [main]: the third pointer is the first one again, cut out
    of the freed block, whose remainder of 196584 bytes heads the free
    list; the break has not moved since the second call. *)
Example main_run :
  run heap_at 4 (initial heap_at, []) main_calls =
    Done (after_main_calls, [heap_at + 262192; heap_at + 24]) /\
  program_break after_main_calls = heap_at + 393264 /\
  free_list after_main_calls = heap_at + 65560 /\
  get_size heap_at after_main_calls (heap_at + 65560) = Done 196584 /\
  no_overlap heap_at after_main_calls [heap_at + 262192; heap_at + 24].
Proof.
  split; [apply done_state_of; vm_compute; reflexivity|].
  split; [vm_compute; reflexivity|].
  split; [vm_compute; reflexivity|].
  split; [vm_compute; reflexivity|].
  intros i j p q r1 r2 Hij Hi Hj Hp Hq [Ho1 Ho2].
  destruct i as [|[|i]]; destruct j as [|[|j]]; cbn in Hi, Hj;
    try congruence; try (destruct i; discriminate);
    try (destruct j; discriminate);
    inversion Hi; inversion Hj; subst;
    vm_compute in Hp; vm_compute in Hq;
    inversion Hp; inversion Hq; subst; cbn in Ho1, Ho2; lia.
Qed.

(** The lemmas on requests that do not wrap around, on the fresh arena. *)

Example split_block_divides_initial_chunk :
  exists st',
    split_block heap_at at_first_split heap_at 8 = Done st' /\
    get_size heap_at st' (heap_at + 32) = Done 16328 /\
    get_free heap_at st' (heap_at + 32) = Done 1 /\
    free_list st' = heap_at + 32 /\
    get_size heap_at st' heap_at = Done 8.
Proof.
  destruct (split_block_divides heap_at ltac:(unfold heap_at; lia)
              ltac:(unfold heap_at, HEAP_SIZE; lia)
              at_first_split heap_at 8 16360)
    as (st' & Hrun & H1 & H2 & _ & H4 & H5 & _).
  - lia.
  - vm_compute. split; [discriminate|reflexivity].
  - reflexivity.
  - reflexivity.
  - reflexivity.
  - unfold HEADER_SIZE, WORD. lia.
  - exists st'. auto.
Qed.

Example grow_within_bounds_initial :
  exists st' sz,
    grow heap_at (initial heap_at) 8 = Done (st', heap_at) /\
    program_break st' = heap_at + 16384 /\
    get_free heap_at st' heap_at = Done 0 /\
    get_size heap_at st' heap_at = Done sz /\ 8 <= sz.
Proof.
  destruct (proj2 (grow_within_bounds heap_at ltac:(unfold heap_at; lia)
                     ltac:(unfold heap_at, HEAP_SIZE; lia)
                     (initial heap_at) 8 ltac:(lia)
                     ltac:(unfold HEADER_SIZE, WORD; lia)
                     ltac:(vm_compute; reflexivity)
                     ltac:(split; vm_compute; discriminate)
                     ltac:(vm_compute; split; [discriminate|reflexivity])))
    as (st' & sz & Hrun & Hpb & Hfr & Hsz & Hle & _).
  - vm_compute. discriminate.
  - exists st', sz. auto.
Qed.

Example run_break_overlap_calls :
  break_in_arena heap_at after_overlap_calls /\
  program_break (initial heap_at) <= program_break after_overlap_calls.
Proof.
  apply (run_break heap_at ltac:(unfold heap_at; lia)
           ltac:(unfold heap_at, HEAP_SIZE; lia) 4%nat overlap_calls
           (initial heap_at) after_overlap_calls [] [heap_at + 56; heap_at + 24]).
  - unfold overlap_calls, modest. repeat constructor; lia.
  - split; vm_compute; discriminate.
  - apply done_state_of. vm_compute. reflexivity.
Qed.

(** ** Runs on which the program departs from its specification *)

(** C1 (fails on the code): after allocate(8), allocate(8), free of the
    first and allocate(16328), the two outstanding blocks are the one at
    offset 32, of size 8, and the one at offset 0, of size 16328, which
    covers it: merge_free_blocks joined the freed block at offset 0 with
    the free block at offset 64, its list neighbour, over the allocated
    block between them. *)
Theorem list_order_merge_overlaps_blocks :
  run heap_at 4 (initial heap_at, []) overlap_calls =
    Done (after_overlap_calls, [heap_at + 56; heap_at + 24]) /\
  get_free heap_at after_overlap_calls (heap_at + 32) = Done 0 /\
  get_free heap_at after_overlap_calls heap_at = Done 0 /\
  extent heap_at after_overlap_calls (heap_at + 56) =
    Done (heap_at + 32, heap_at + 40) /\
  extent heap_at after_overlap_calls (heap_at + 24) =
    Done (heap_at, heap_at + 16328) /\
  ~ no_overlap heap_at after_overlap_calls [heap_at + 56; heap_at + 24].
Proof.
  assert (E1 : extent heap_at after_overlap_calls (heap_at + 56) =
               Done (heap_at + 32, heap_at + 40)) by (vm_compute; reflexivity).
  assert (E2 : extent heap_at after_overlap_calls (heap_at + 24) =
               Done (heap_at, heap_at + 16328)) by (vm_compute; reflexivity).
  split; [apply done_state_of; vm_compute; reflexivity|].
  split; [vm_compute; reflexivity|].
  split; [vm_compute; reflexivity|].
  split; [exact E1|]. split; [exact E2|].
  intros Hno.
  apply (Hno 0%nat 1%nat _ _ _ _ ltac:(discriminate) eq_refl eq_refl E1 E2).
  unfold overlapping, heap_at. cbn [fst snd]. lia.
Qed.

(** C7 (fails on the code): after these six calls the free list is
    offset 16512 -> offset 16384 -> offset 16512 -> ..., and the block at
    offset 16384 is flagged allocated and is the block of the outstanding
    pointer heap + 16408. *)
Theorem free_list_holds_allocated_block :
  run heap_at 4 (initial heap_at, []) cycle_calls =
    Done (after_cycle_calls, [heap_at + 56; heap_at + 16408]) /\
  free_list after_cycle_calls = heap_at + 16512 /\
  get_next heap_at after_cycle_calls (heap_at + 16512) = Done (heap_at + 16384) /\
  get_next heap_at after_cycle_calls (heap_at + 16384) = Done (heap_at + 16512) /\
  get_free heap_at after_cycle_calls (heap_at + 16384) = Done 0 /\
  ~ free_list_sound heap_at after_cycle_calls [heap_at + 56; heap_at + 16408].
Proof.
  assert (Hn : get_next heap_at after_cycle_calls (heap_at + 16512) =
               Done (heap_at + 16384)) by (vm_compute; reflexivity).
  assert (Hf : get_free heap_at after_cycle_calls (heap_at + 16384) = Done 0)
    by (vm_compute; reflexivity).
  split; [apply done_state_of; vm_compute; reflexivity|].
  split; [vm_compute; reflexivity|].
  split; [exact Hn|].
  split; [vm_compute; reflexivity|].
  split; [exact Hf|].
  intros Hs.
  destruct (Hs (heap_at + 16384)) as ((fr & Hfr & Hfr0) & _).
  - apply (reach_next heap_at _ (heap_at + 16512) (heap_at + 16384)).
    + vm_compute. discriminate.
    + exact Hn.
    + apply reach_here.
  - vm_compute. discriminate.
  - rewrite Hf in Hfr. inversion Hfr. congruence.
Qed.

(** C8 (fails on the code): in the state after [stray_calls],
    allocate(104) succeeds with the pointer heap + 16408, and the free of
    that pointer, made at once, never returns: the free list already links
    to the block, HmmFree puts the block in front of the list, and
    merge_free_blocks runs in the circle. *)
Theorem free_after_allocate_never_returns :
  run heap_at 4 (initial heap_at, []) stray_calls =
    Done (after_stray_calls, [heap_at + 56]) /\
  HmmAlloc heap_at 4 after_stray_calls 104 =
    Done (after_stray_alloc, heap_at + 16408) /\
  forall fuel : nat,
    HmmFree heap_at fuel after_stray_alloc (heap_at + 16408) = Timeout.
Proof.
  split; [apply done_state_of; vm_compute; reflexivity|].
  split; [apply done_state_of; vm_compute; reflexivity|].
  apply (HmmFree_never_returns heap_at after_stray_alloc (heap_at + 16408)
           (heap_at + 16512) 1 16232).
  - unfold heap_at. lia.
  - unfold heap_at, HEAP_SIZE. lia.
  - vm_compute. reflexivity.
  - vm_compute. reflexivity.
  - unfold heap_at, HEADER_SIZE. lia.
  - vm_compute. reflexivity.
  - vm_compute. reflexivity.
  - discriminate.
  - vm_compute. reflexivity.
Qed.

(** C4 (fails on the code): in the state after [cycle_calls], which six
    calls within the contract reach, the free list is the circle offset
    16512 -> offset 16384 -> offset 16512.  For a request of 20000 bytes
    no block of the list qualifies (the first is too small, the second is
    not free) and growth would serve the request with the block at the
    break; yet the scan of lines 86-104 goes round the circle and never
    falls through to growth: find_free_block, and with it HmmAlloc, never
    returns.  For a request of 8 bytes the head block qualifies, the list
    head is updated and the block is returned, but it is still met when
    following [next] from the new head: it has not left the list. *)
Theorem find_free_block_never_reaches_growth :
  run heap_at 4 (initial heap_at, []) cycle_calls =
    Done (after_cycle_calls, [heap_at + 56; heap_at + 16408]) /\
  free_list after_cycle_calls = heap_at + 16512 /\
  (forall c, In c [heap_at + 16512; heap_at + 16384] ->
     rejected heap_at after_cycle_calls 20000 c /\
     exists nx, get_next heap_at after_cycle_calls c = Done nx /\
                In nx [heap_at + 16512; heap_at + 16384]) /\
  (exists st',
     grow heap_at after_cycle_calls 20000 = Done (st', heap_at + 32768)) /\
  (forall fuel : nat,
     find_free_block heap_at fuel after_cycle_calls 20000 = Timeout) /\
  (forall fuel : nat,
     HmmAlloc heap_at fuel after_cycle_calls 20000 = Timeout) /\
  accepted heap_at after_cycle_calls 8 (heap_at + 16512) /\
  find_free_block heap_at 4 after_cycle_calls 8 =
    Done (after_cycle_take, heap_at + 16512) /\
  free_list after_cycle_take = heap_at + 16544 /\
  reachable heap_at after_cycle_take (free_list after_cycle_take)
    (heap_at + 16512).
Proof.
  assert (Hcircle : forall c, In c [heap_at + 16512; heap_at + 16384] ->
            rejected heap_at after_cycle_calls 20000 c /\
            exists nx, get_next heap_at after_cycle_calls c = Done nx /\
                       In nx [heap_at + 16512; heap_at + 16384]).
  { intros c [<- | [<- | []]].
    - split.
      + split; [vm_compute; discriminate|].
        exists 1. split; [vm_compute; reflexivity|].
        right. exists 16232. split; [vm_compute; reflexivity|lia].
      + exists (heap_at + 16384). split; [vm_compute; reflexivity|].
        right. left. reflexivity.
    - split.
      + split; [vm_compute; discriminate|].
        exists 0. split; [vm_compute; reflexivity|]. left. reflexivity.
      + exists (heap_at + 16512). split; [vm_compute; reflexivity|].
        left. reflexivity. }
  assert (Hhead : free_list after_cycle_calls = heap_at + 16512)
    by (vm_compute; reflexivity).
  assert (Hfind : forall fuel : nat,
            find_free_block heap_at fuel after_cycle_calls 20000 = Timeout).
  { intros fuel. unfold find_free_block. rewrite Hhead.
    apply (find_loop_circles heap_at after_cycle_calls 20000
             [heap_at + 16512; heap_at + 16384] Hcircle).
    left. reflexivity. }
  split; [apply done_state_of; vm_compute; reflexivity|].
  split; [exact Hhead|].
  split; [exact Hcircle|].
  split.
  { eexists. apply (done_state_of heap_at). vm_compute. reflexivity. }
  split; [exact Hfind|].
  split.
  { intros fuel. unfold HmmAlloc.
    change (20000 =? 0) with false. cbv iota.
    change (ALIGN 20000) with 20000.
    rewrite Hfind. reflexivity. }
  split.
  { split; [vm_compute; discriminate|].
    exists 1, 16232. split; [vm_compute; reflexivity|].
    split; [discriminate|]. split; [vm_compute; reflexivity|lia]. }
  split; [apply done_state_of; vm_compute; reflexivity|].
  split; [vm_compute; reflexivity|].
  apply (reach_next heap_at _ (heap_at + 16544) (heap_at + 16384)).
  - vm_compute. discriminate.
  - vm_compute. reflexivity.
  - apply (reach_next heap_at _ (heap_at + 16384) (heap_at + 16512)).
    + vm_compute. discriminate.
    + vm_compute. reflexivity.
    + apply reach_here.
Qed.

(** Growth, when the bound check of line 109 passes and the test of line
    126 holds, is the call of split_block on the state of line 123. *)
Lemma grow_calls_split (heap_base : Z) (st s1 s2 s3 : state) (size nsz : Z) :
  let chunk := if wrap (size + HEADER_SIZE) <? 1024 * 16
               then 1024 * 16 else wrap (size + HEADER_SIZE) in
  let st4 := set_program_break s3 (wrap (program_break s3 + chunk)) in
  (wrap (program_break st + chunk) >? wrap (heap_base + HEAP_SIZE)) = false ->
  put_size heap_base st (program_break st) (wrap (chunk - HEADER_SIZE)) = Done s1 ->
  put_free heap_base s1 (program_break st) 0 = Done s2 ->
  put_next heap_base s2 (program_break st) NULL = Done s3 ->
  get_size heap_base st4 (program_break st) = Done nsz ->
  (nsz >? wrap (size + MIN_BLOCK_SIZE)) = true ->
  grow heap_base st size =
  (st5 <- split_block heap_base st4 (program_break st) size ;;
   Done (st5, program_break st)).
Proof.
  intros chunk st4 Hchk H1 H2 H3 Hn Hgt.
  unfold grow. fold chunk. rewrite Hchk, H1. cbn [bind].
  rewrite H2. cbn [bind]. rewrite H3. cbn [bind].
  fold st4. rewrite Hn. cbn [bind]. rewrite Hgt. reflexivity.
Qed.

(** C3 (fails on the code): on the fresh arena the search misses, and a
    request of [2^64 - heap - 24] bytes makes the chunk [2^64 - heap]
    bytes long, far beyond the capacity; yet [program_break + chunk_size]
    wraps around to 0 in line 109, so growth does not answer NULL: it
    returns the block at the start of the array and leaves the break at
    address 0.  Likewise, after allocate(8) the only free block (16328
    bytes) is too small for a request of [2^64 - 32] bytes, the chunk of
    [2^64 - 8] bytes does not fit, and growth returns the block at offset
    16384.  ([grow_within_bounds] is the behaviour for requests whose sums
    do not wrap around.) *)
Theorem growth_accepts_wrapping_request :
  free_list (initial heap_at) = NULL /\
  wrap (wrapping + HEADER_SIZE) = wrapping + HEADER_SIZE /\
  1024 * 16 <= wrapping + HEADER_SIZE /\
  HEAP_SIZE <
    (program_break (initial heap_at) - heap_at) + (wrapping + HEADER_SIZE) /\
  find_free_block heap_at 1 (initial heap_at) wrapping =
    Done (after_wrapping_growth, heap_at) /\
  heap_at <> NULL /\
  get_size heap_at after_wrapping_growth heap_at = Done wrapping /\
  program_break after_wrapping_growth = 0 /\
  program_break after_first_alloc - heap_at = 16384 /\
  wrap (huge + HEADER_SIZE) = huge + HEADER_SIZE /\
  HEAP_SIZE < 16384 + (huge + HEADER_SIZE) /\
  find_free_block heap_at 2 after_first_alloc huge =
    Done (after_huge_growth, heap_at + 16384) /\
  program_break after_huge_growth - heap_at = 16376.
Proof.
  split; [reflexivity|].
  split; [vm_compute; reflexivity|].
  split; [vm_compute; discriminate|].
  split; [vm_compute; reflexivity|].
  split; [apply done_state_of; vm_compute; reflexivity|].
  split; [vm_compute; discriminate|].
  split; [vm_compute; reflexivity|].
  split; [vm_compute; reflexivity|].
  split; [vm_compute; reflexivity|].
  split; [vm_compute; reflexivity|].
  split; [vm_compute; reflexivity|].
  split; [apply done_state_of; vm_compute; reflexivity|].
  vm_compute; reflexivity.
Qed.

(** C5 (fails on the code): while the state after allocate(8) serves a
    request of [2^64 - 32] bytes, line 128 calls split_block on the new
    block, whose size is [2^64 - 32], with that requested size.  The size
    is smaller than [requested + HEADER_SIZE + 8], but that sum wraps
    around to 0 in line 137, and the block is divided: a header appears 8
    bytes before the block, is put at the head of the free list, and
    overlaps the block's own header, whose size field does not keep its
    value.  ([split_block_whole] and [split_block_divides] are the
    behaviour for requests whose sums do not wrap around.) *)
Theorem split_block_divides_on_wrapped_sum :
  grow heap_at after_first_alloc huge =
    (st5 <- split_block heap_at at_huge_split huge_block huge ;;
     Done (st5, huge_block)) /\
  huge_block = heap_at + 16384 /\
  get_size heap_at at_huge_split huge_block = Done huge /\
  huge < huge + HEADER_SIZE + WORD /\
  split_block heap_at at_huge_split huge_block huge = Done after_huge_split /\
  free_list at_huge_split = heap_at + 32 /\
  free_list after_huge_split = heap_at + 16376 /\
  get_size heap_at after_huge_split (heap_at + 16376) = Done (2 ^ 64 - 24) /\
  get_size heap_at after_huge_split huge_block = Done (heap_at + 32).
Proof.
  split.
  - apply (grow_calls_split heap_at after_first_alloc
             (final heap_at
                (put_size heap_at after_first_alloc huge_block
                   (wrap (wrap (huge + HEADER_SIZE) - HEADER_SIZE))))
             (final heap_at
                (put_free heap_at
                   (final heap_at
                      (put_size heap_at after_first_alloc huge_block
                         (wrap (wrap (huge + HEADER_SIZE) - HEADER_SIZE))))
                   huge_block 0))
             _ huge huge).
    + vm_compute. reflexivity.
    + apply done_final. vm_compute. reflexivity.
    + apply done_final. vm_compute. reflexivity.
    + apply done_final. vm_compute. reflexivity.
    + vm_compute. reflexivity.
    + vm_compute. reflexivity.
  - split; [vm_compute; reflexivity|].
    split; [vm_compute; reflexivity|].
    split; [unfold huge, HEADER_SIZE, WORD; lia|].
    split; [apply done_final; vm_compute; reflexivity|].
    repeat split; vm_compute; reflexivity.
Qed.

(** C6 (fails on the code): on the fresh arena, allocate of
    [2^64 - heap - 24] bytes succeeds and leaves the program break at
    address 0, below the array; and after allocate(8), allocate of
    [2^64 - 32] bytes succeeds and moves the break 8 bytes back.  In both
    runs the sum of line 109 wraps around and passes the bound check.
    ([run_break] is the invariant for requests of at most [2^62] bytes.) *)
Theorem break_leaves_arena_on_wrapped_sum :
  break_in_arena heap_at (initial heap_at) /\
  run heap_at 1 (initial heap_at, []) [Allocate wrapping] =
    Done (after_wrapping_call, [heap_at + 24]) /\
  program_break after_wrapping_call = 0 /\
  ~ break_in_arena heap_at after_wrapping_call /\
  program_break after_wrapping_call < program_break (initial heap_at) /\
  run heap_at 4 (initial heap_at, []) [Allocate 8; Allocate huge] =
    Done (after_huge_call, [heap_at + 24; heap_at + 16408]) /\
  program_break after_first_alloc = heap_at + 16384 /\
  program_break after_huge_call = heap_at + 16376.
Proof.
  split; [unfold break_in_arena; cbn; unfold heap_at, HEAP_SIZE; lia|].
  split; [apply done_state_of; vm_compute; reflexivity|].
  assert (E : program_break after_wrapping_call = 0) by (vm_compute; reflexivity).
  split; [exact E|].
  split; [unfold break_in_arena; rewrite E; unfold heap_at; lia|].
  split; [rewrite E; cbn; unfold heap_at; lia|].
  split; [apply done_state_of; vm_compute; reflexivity|].
  split; vm_compute; reflexivity.
Qed.

(** * Further properties of the code *)

(** ** ALIGN (line 27) *)

(** X1: for a request that leaves room for the rounding, [ALIGN] gives the
    least multiple of 8 that is not below the request: it is a multiple of
    8, lies between [x] and [x + 7], leaves multiples of 8 as they are, and
    aligning twice changes nothing. *)
Theorem ALIGN_rounds_up (x : Z) :
  0 <= x ->
  x + 7 < 2 ^ 64 ->
  x <= ALIGN x <= x + 7 /\
  ALIGN x mod 8 = 0 /\
  (x mod 8 = 0 -> ALIGN x = x) /\
  ALIGN (ALIGN x) = ALIGN x.
Proof.
  intros H0 H1.
  assert (Hv : forall y, 0 <= y -> y + 7 < 2 ^ 64 ->
                 ALIGN y = 8 * ((y + 7) / 8)).
  { intros y Hy0 Hy1. rewrite ALIGN_value. unfold wrap.
    now rewrite Z.mod_small by lia. }
  assert (Hfix : forall y, 0 <= y -> y + 7 < 2 ^ 64 -> y mod 8 = 0 ->
                   ALIGN y = y).
  { intros y Hy0 Hy1 Hm. rewrite (Hv y Hy0 Hy1).
    pose proof (Z.div_mod y 8 ltac:(lia)) as Hd. rewrite Hm in Hd.
    replace (y + 7) with (7 + (y / 8) * 8) by lia.
    rewrite Z.div_add by lia. change (7 / 8) with 0. lia. }
  assert (Hmul : ALIGN x mod 8 = 0).
  { rewrite (Hv x H0 H1). rewrite Z.mul_comm. apply Z.mod_mul. lia. }
  assert (Hb : x <= ALIGN x <= x + 7).
  { rewrite (Hv x H0 H1).
    pose proof (Z.div_mod (x + 7) 8 ltac:(lia)).
    pose proof (Z.mod_pos_bound (x + 7) 8 ltac:(lia)). lia. }
  split; [exact Hb|]. split; [exact Hmul|]. split; [now apply Hfix|].
  assert (Hle : ALIGN x <= 8 * ((2 ^ 64 - 1) / 8)).
  { rewrite (Hv x H0 H1). apply Z.mul_le_mono_nonneg_l; [lia|].
    apply Z.div_le_mono; lia. }
  change (8 * ((2 ^ 64 - 1) / 8)) with (2 ^ 64 - 8) in Hle.
  apply Hfix; [lia|lia|exact Hmul].
Qed.

Lemma ALIGN_rounds_up_witness :
  13 <= ALIGN 13 <= 13 + 7 /\
  ALIGN 13 mod 8 = 0 /\
  (13 mod 8 = 0 -> ALIGN 13 = 13) /\
  ALIGN (ALIGN 13) = ALIGN 13.
Proof. apply (ALIGN_rounds_up 13); lia. Defined.

(** X2: the seven largest request sizes round to 0 (the sum of the macro
    wraps around), so that HmmAlloc, which has refused size 0 in line 44,
    goes on with a request of no bytes at all: on the fresh arena, wherever
    the array lies, such a call succeeds, returns the first payload
    address and takes a single 16 KiB chunk. *)
Theorem ALIGN_wraps_to_zero (x : Z) :
  2 ^ 64 - 8 < x < 2 ^ 64 ->
  ALIGN x = 0 /\
  forall heap_base : Z,
    0 < heap_base ->
    heap_base + HEAP_SIZE < 2 ^ 64 ->
    exists st',
      HmmAlloc heap_base 1 (initial heap_base) x = Done (st', heap_base + 24) /\
      program_break st' = heap_base + 1024 * 16.
Proof.
  intros Hx.
  assert (Ha : ALIGN x = 0).
  { rewrite ALIGN_value. unfold wrap.
    replace (x + 7) with (x + 7 - 2 ^ 64 + 1 * 2 ^ 64) by lia.
    rewrite Z.mod_add by lia. rewrite Z.mod_small by lia.
    rewrite Z.div_small by lia. reflexivity. }
  split; [exact Ha|].
  intros heap_base Hb Htop.
  unfold HmmAlloc.
  replace (x =? 0) with false by (symmetry; apply Z.eqb_neq; lia).
  rewrite Ha. unfold find_free_block. cbn [find_loop free_list initial].
  change (NULL =? NULL) with true. cbv iota.
  destruct (proj2 (grow_within_bounds heap_base Hb Htop (initial heap_base) 0
                     ltac:(lia) ltac:(unfold HEADER_SIZE, WORD; lia)
                     ltac:(cbn; unfold HEADER_SIZE, HEAP_SIZE in *; lia)
                     ltac:(unfold break_in_arena, HEAP_SIZE; cbn; lia)
                     ltac:(cbn; unfold NULL; lia)))
    as (st' & sz & Hrun & Hpb & Hfr & Hsz & Hle & _).
  - cbn. unfold HEADER_SIZE, HEAP_SIZE. lia.
  - cbn [program_break initial] in *. rewrite Hrun. cbn [bind].
    replace (heap_base =? NULL) with false
      by (symmetry; apply Z.eqb_neq; unfold NULL; lia).
    pose proof (load_done heap_base 4 st' _ _ Hfr) as [Hin _].
    unfold put_free. rewrite (store_in_heap heap_base 4 st' _ 0 Hin).
    cbn [bind]. eexists. split; [reflexivity|].
    cbn [program_break set_heap]. rewrite Hpb.
    unfold HEADER_SIZE. rewrite Z.max_r by lia. reflexivity.
Qed.

Lemma ALIGN_wraps_to_zero_witness :
  ALIGN (2 ^ 64 - 1) = 0 /\
  exists st',
    HmmAlloc heap_at 1 (initial heap_at) (2 ^ 64 - 1) = Done (st', heap_at + 24) /\
    program_break st' = heap_at + 1024 * 16.
Proof.
  destruct (ALIGN_wraps_to_zero (2 ^ 64 - 1) ltac:(lia)) as [Ha Hrun].
  split; [exact Ha|].
  apply (Hrun heap_at); unfold heap_at, HEAP_SIZE; lia.
Defined.

(** ** split_block (lines 135-155) *)

Section Writes.

Variable heap_base : Z.

Ltac heap_steps i :=
  unfold put_size, put_next, put_free in *;
  repeat match goal with
         | H : store heap_base ?n ?s ?a ?v = Done ?s' |- _ =>
             let E := fresh "Hheap" in
             assert (E : heap s' i = heap s i)
               by (apply (store_heap_outside heap_base n s s' a v i H);
                   zsizes; lia);
             clear H
         end.

(** split_block writes the [size] and [next] fields of the block and the
    header of the remainder, and nothing else. *)
Lemma split_block_writes (st st' : state) (block size i : Z) :
  let new_block := wrap (wrap (block + HEADER_SIZE) + size) in
  split_block heap_base st block size = Done st' ->
  i < block - heap_base \/ block - heap_base + 16 <= i ->
  i < new_block - heap_base \/ new_block - heap_base + HEADER_SIZE <= i ->
  heap st' i = heap st i.
Proof.
  intros nb E Hb Hn. subst nb. unfold split_block in E.
  unfold HEADER_SIZE in *.
  set (nb := wrap (wrap (block + 24) + size)) in *.
  bind_inv E. destruct (_ <=? a); [|inversion E; reflexivity].
  do 7 bind_inv E. unfold add_to_free_list in E. bind_inv E.
  inversion E; subst. cbn [heap set_free_list].
  heap_steps i. congruence.
Qed.

End Writes.

(** The dividing case with the bytes that are kept. *)
Lemma split_block_no_wrap_aux (heap_base : Z) :
  0 < heap_base ->
  heap_base + HEAP_SIZE < 2 ^ 64 ->
  forall (st : state) (block size bsz : Z),
  0 <= size ->
  0 <= free_list st < 2 ^ 64 ->
  in_heap heap_base block HEADER_SIZE = true ->
  in_heap heap_base (block + HEADER_SIZE + size) HEADER_SIZE = true ->
  get_size heap_base st block = Done bsz ->
  size + HEADER_SIZE + WORD <= bsz ->
  exists st',
    split_block heap_base st block size = Done st' /\
    get_size heap_base st' block = Done size /\
    get_free heap_base st' block = get_free heap_base st block /\
    get_size heap_base st' (block + HEADER_SIZE + size) =
      Done (bsz - size - HEADER_SIZE) /\
    get_free heap_base st' (block + HEADER_SIZE + size) = Done 1 /\
    get_next heap_base st' (block + HEADER_SIZE + size) = Done (free_list st) /\
    free_list st' = block + HEADER_SIZE + size /\
    program_break st' = program_break st /\
    (forall i,
       i < block - heap_base \/ block - heap_base + 16 <= i ->
       i < block + HEADER_SIZE + size - heap_base \/
       block + HEADER_SIZE + size - heap_base + HEADER_SIZE <= i ->
       heap st' i = heap st i).
Proof.
  intros Hb Htop st block size bsz Hs Hfl Hin Hnb Hsz Hle.
  destruct (split_block_divides heap_base Hb Htop st block size bsz
              Hs Hfl Hin Hnb Hsz Hle)
    as (st' & Hrun & H1 & H2 & H3 & H4 & H5 & H6 & H7).
  exists st'. split; [exact Hrun|]. split; [exact H5|]. split; [exact H6|].
  split; [exact H1|]. split; [exact H2|]. split; [exact H3|].
  split; [exact H4|]. split; [exact H7|].
  intros i Hi1 Hi2.
  apply (split_block_writes heap_base st st' block size i Hrun Hi1).
  apply in_heap_true in Hin. apply in_heap_true in Hnb.
  unfold wrap, HEADER_SIZE in *.
  rewrite (Z.mod_small (block + 24)) by lia.
  rewrite (Z.mod_small (block + 24 + size)) by lia.
  exact Hi2.
Qed.

(** X3: split_block for a request whose sums stay below [2^64]: a block of
    fewer than [size + 24 + 8] bytes is left as it is, with the whole state;
    a larger block whose remainder header lies in the array is cut down to
    [size] bytes, the remainder gets a header [size] bytes past the end of
    the block's header, holding the size [block.size - size - 24], flagged
    free and put at the head of the free list in front of the old head; the
    block's free flag and the break are kept and no byte outside the two
    headers is written. *)
Theorem split_block_no_wrap (heap_base : Z) (st : state) (block size bsz : Z) :
  0 < heap_base ->
  heap_base + HEAP_SIZE < 2 ^ 64 ->
  0 <= size ->
  size + HEADER_SIZE + WORD < 2 ^ 64 ->
  0 <= free_list st < 2 ^ 64 ->
  in_heap heap_base block HEADER_SIZE = true ->
  get_size heap_base st block = Done bsz ->
  (bsz < size + HEADER_SIZE + WORD ->
     split_block heap_base st block size = Done st) /\
  (size + HEADER_SIZE + WORD <= bsz ->
   in_heap heap_base (block + HEADER_SIZE + size) HEADER_SIZE = true ->
     exists st',
       split_block heap_base st block size = Done st' /\
       get_size heap_base st' block = Done size /\
       get_free heap_base st' block = get_free heap_base st block /\
       get_size heap_base st' (block + HEADER_SIZE + size) =
         Done (bsz - size - HEADER_SIZE) /\
       get_free heap_base st' (block + HEADER_SIZE + size) = Done 1 /\
       get_next heap_base st' (block + HEADER_SIZE + size) = Done (free_list st) /\
       free_list st' = block + HEADER_SIZE + size /\
       program_break st' = program_break st /\
       (forall i,
          i < block - heap_base \/ block - heap_base + 16 <= i ->
          i < block + HEADER_SIZE + size - heap_base \/
          block + HEADER_SIZE + size - heap_base + HEADER_SIZE <= i ->
          heap st' i = heap st i)).
Proof.
  intros Hb Htop Hs Hw Hfl Hin Hsz. split.
  - intros Hlt. now apply (split_block_whole heap_base st block size bsz).
  - intros Hle Hnb.
    exact (split_block_no_wrap_aux heap_base Hb Htop st block size bsz
             Hs Hfl Hin Hnb Hsz Hle).
Qed.

Lemma split_block_no_wrap_witness :
  split_block heap_at at_first_split heap_at 16340 = Done at_first_split /\
  exists st',
    split_block heap_at at_first_split heap_at 8 = Done st' /\
    get_size heap_at st' heap_at = Done 8 /\
    free_list st' = heap_at + HEADER_SIZE + 8.
Proof.
  split.
  - apply (proj1 (split_block_no_wrap heap_at at_first_split heap_at 16340 16360
                    ltac:(unfold heap_at; lia)
                    ltac:(unfold heap_at, HEAP_SIZE; lia)
                    ltac:(lia)
                    ltac:(unfold HEADER_SIZE, WORD; lia)
                    ltac:(vm_compute; split; [discriminate|reflexivity])
                    ltac:(reflexivity) ltac:(reflexivity))).
    unfold HEADER_SIZE, WORD. lia.
  - destruct (proj2 (split_block_no_wrap heap_at at_first_split heap_at 8 16360
                       ltac:(unfold heap_at; lia)
                       ltac:(unfold heap_at, HEAP_SIZE; lia)
                       ltac:(lia)
                       ltac:(unfold HEADER_SIZE, WORD; lia)
                       ltac:(vm_compute; split; [discriminate|reflexivity])
                       ltac:(reflexivity) ltac:(reflexivity))
                ltac:(unfold HEADER_SIZE, WORD; lia) ltac:(reflexivity))
      as (st' & Hrun & H1 & _ & _ & _ & _ & H6 & _).
    exists st'. auto.
Defined.

(** ** Growth and allocation on an empty free list (lines 42-60, 106-131) *)

Section Growth.

Variable heap_base : Z.
Hypothesis heap_base_pos : 0 < heap_base.
Hypothesis heap_in_address_space : heap_base + HEAP_SIZE < 2 ^ 64.

Ltac across H :=
  rewrite (load_store_apart heap_base _ _ _ _ _ _ _ H) by (zsizes; lia).

(** Growth that fits, in full: the header at the old break, the
    remainder when the chunk is split, and the bytes that are kept. *)
Lemma grow_detail (st : state) (size : Z) :
  let chunk := Z.max (size + HEADER_SIZE) (1024 * 16) in
  let brk := program_break st in
  0 <= size ->
  size + HEADER_SIZE + WORD < 2 ^ 64 ->
  brk + chunk < 2 ^ 64 ->
  break_in_arena heap_base st ->
  0 <= free_list st < 2 ^ 64 ->
  brk - heap_base + chunk <= HEAP_SIZE ->
  exists st',
    grow heap_base st size = Done (st', brk) /\
    program_break st' = brk + chunk /\
    get_free heap_base st' brk = Done 0 /\
    (forall i, i < brk - heap_base \/ brk - heap_base + chunk <= i ->
               heap st' i = heap st i) /\
    (size + 32 < chunk - 24 /\
     get_size heap_base st' brk = Done size /\
     free_list st' = brk + 24 + size /\
     get_size heap_base st' (brk + 24 + size) = Done (chunk - 48 - size) /\
     get_free heap_base st' (brk + 24 + size) = Done 1 /\
     get_next heap_base st' (brk + 24 + size) = Done (free_list st)
     \/
     chunk - 24 <= size + 32 /\
     get_size heap_base st' brk = Done (chunk - 24) /\
     free_list st' = free_list st).
Proof.
  intros chunk brk Hs Hw Hnw [Hlo Hhi] Hfl Hfit. subst brk.
  assert (Hchunk :
    (if wrap (size + HEADER_SIZE) <? 1024 * 16
     then 1024 * 16 else wrap (size + HEADER_SIZE)) = chunk).
  { unfold chunk, wrap, HEADER_SIZE, WORD in *.
    rewrite Z.mod_small by lia.
    destruct (size + 24 <? 1024 * 16) eqn:E;
      [apply Z.ltb_lt in E | apply Z.ltb_ge in E]; lia. }
  assert (Hc : 1024 * 16 <= chunk /\ size + HEADER_SIZE <= chunk)
    by (unfold chunk; lia).
  assert (W1 : wrap (program_break st + chunk) = program_break st + chunk)
    by (apply Z.mod_small; lia).
  assert (W2 : wrap (heap_base + HEAP_SIZE) = heap_base + HEAP_SIZE)
    by (apply Z.mod_small; unfold HEAP_SIZE in *; lia).
  assert (W3 : wrap (chunk - HEADER_SIZE) = chunk - HEADER_SIZE)
    by (apply Z.mod_small; unfold HEADER_SIZE in *; lia).
  assert (W4 : wrap (size + 32) = size + 32)
    by (apply Z.mod_small; unfold HEADER_SIZE, WORD in *; lia).
  unfold grow. rewrite Hchunk, W1, W2, W3.
  replace (program_break st + chunk >? heap_base + HEAP_SIZE) with false
    by (symmetry; rewrite Z.gtb_ltb; apply Z.ltb_ge; lia).
  set (brk := program_break st) in *.
  unfold HEADER_SIZE, WORD in *.
  assert (Hi1 : in_heap heap_base brk (Z.of_nat 8) = true)
    by (apply in_heap_true; zsizes; lia).
  assert (Hi2 : in_heap heap_base (brk + 16) (Z.of_nat 4) = true)
    by (apply in_heap_true; zsizes; lia).
  assert (Hi3 : in_heap heap_base (brk + 8) (Z.of_nat 8) = true)
    by (apply in_heap_true; zsizes; lia).
  unfold put_size, put_free, put_next.
  destruct (store_ok heap_base 8 st _ (chunk - 24) Hi1) as (s1 & H1).
  rewrite H1. cbn [bind].
  destruct (store_ok heap_base 4 s1 _ 0 Hi2) as (s2 & H2).
  rewrite H2. cbn [bind].
  destruct (store_ok heap_base 8 s2 _ NULL Hi3) as (s3 & H3).
  rewrite H3. cbn [bind].
  pose proof (store_globals heap_base _ _ _ _ _ H1) as [P1 F1].
  pose proof (store_globals heap_base _ _ _ _ _ H2) as [P2 F2].
  pose proof (store_globals heap_base _ _ _ _ _ H3) as [P3 F3].
  replace (program_break s3) with brk by (unfold brk; congruence).
  rewrite W1.
  set (st4 := set_program_break s3 (brk + chunk)).
  assert (Hsz4 : get_size heap_base st4 brk = Done (chunk - 24)).
  { unfold get_size, st4. rewrite load_set_program_break.
    across H3. across H2.
    rewrite (load_store_same heap_base 8 st s1 _ _ H1).
    f_equal. apply Z.mod_small. zsizes. lia. }
  assert (Hfr4 : get_free heap_base st4 brk = Done 0).
  { unfold get_free, st4. rewrite load_set_program_break.
    across H3.
    rewrite (load_store_same heap_base 4 s1 s2 _ _ H2). reflexivity. }
  assert (Hheap4 : forall i,
             i < brk - heap_base \/ brk - heap_base + chunk <= i ->
             heap st4 i = heap st i).
  { intros i Hi. unfold st4. cbn [heap set_program_break].
    rewrite (store_heap_outside heap_base 8 s2 s3 _ _ i H3) by (zsizes; lia).
    rewrite (store_heap_outside heap_base 4 s1 s2 _ _ i H2) by (zsizes; lia).
    apply (store_heap_outside heap_base 8 st s1 _ _ i H1). zsizes. lia. }
  rewrite Hsz4. cbn [bind].
  rewrite MIN_BLOCK_SIZE_value, W4.
  destruct (chunk - 24 >? size + 32) eqn:Hsplit.
  - apply Z.gtb_lt in Hsplit.
    assert (Hfl4 : 0 <= free_list st4 < 2 ^ 64)
      by (cbn [free_list st4 set_program_break];
          replace (free_list s3) with (free_list st) by congruence; lia).
    assert (Hib : in_heap heap_base brk HEADER_SIZE = true)
      by (apply in_heap_true; unfold HEADER_SIZE; lia).
    assert (Hnb : in_heap heap_base (brk + HEADER_SIZE + size) HEADER_SIZE = true)
      by (apply in_heap_true; unfold HEADER_SIZE; lia).
    destruct (split_block_divides heap_base heap_base_pos heap_in_address_space
                st4 brk size (chunk - 24) Hs Hfl4 Hib Hnb Hsz4
                ltac:(unfold HEADER_SIZE, WORD; lia))
      as (st' & Hrun & Hnsz & Hnfr & Hnnx & Hnfl & Hbsz & Hbfr & Hbpb).
    unfold HEADER_SIZE in *.
    rewrite Hrun. cbn [bind]. exists st'.
    split; [reflexivity|]. split; [rewrite Hbpb; reflexivity|].
    split; [rewrite Hbfr; exact Hfr4|]. split.
    + intros i Hi. rewrite <- (Hheap4 i Hi).
      apply (split_block_writes heap_base st4 st' brk size i Hrun); [lia|].
      unfold wrap, HEADER_SIZE.
      rewrite (Z.mod_small (brk + 24)) by lia.
      rewrite (Z.mod_small (brk + 24 + size)) by lia. lia.
    + left. split; [lia|]. split; [exact Hbsz|]. split; [exact Hnfl|].
      split; [rewrite Hnsz; f_equal; lia|]. split; [exact Hnfr|].
      rewrite Hnnx. cbn [free_list st4 set_program_break]. congruence.
  - rewrite Z.gtb_ltb in Hsplit. apply Z.ltb_ge in Hsplit.
    exists st4.
    split; [reflexivity|]. split; [reflexivity|].
    split; [exact Hfr4|]. split; [exact Hheap4|].
    right. split; [lia|]. split; [exact Hsz4|].
    cbn [free_list st4 set_program_break]. congruence.
Qed.

End Growth.

(** Allocation by growth, in full. *)
Lemma HmmAlloc_grows (heap_base : Z) (fuel : nat)
    (st : state) (size : Z) :
  let s := ALIGN size in
  let chunk := Z.max (s + HEADER_SIZE) (1024 * 16) in
  let brk := program_break st in
  0 < heap_base ->
  heap_base + HEAP_SIZE <= 2 ^ 63 ->
  modest size ->
  size <> 0 ->
  free_list st = NULL ->
  break_in_arena heap_base st ->
  size <= s <= size + 7 /\
  (HEAP_SIZE < brk - heap_base + chunk ->
     HmmAlloc heap_base (S fuel) st size = Done (st, NULL)) /\
  (brk - heap_base + chunk <= HEAP_SIZE ->
     exists st',
       HmmAlloc heap_base (S fuel) st size = Done (st', brk + HEADER_SIZE) /\
       program_break st' = brk + chunk /\
       get_free heap_base st' brk = Done 0 /\
       (forall i, i < brk - heap_base \/ brk - heap_base + chunk <= i ->
                  heap st' i = heap st i) /\
       (s + 32 < chunk - 24 /\
        get_size heap_base st' brk = Done s /\
        is_list heap_base st' (free_list st')
          [mkBlock (brk + 24 + s) (chunk - 48 - s) true]
        \/
        chunk - 24 <= s + 32 /\
        get_size heap_base st' brk = Done (chunk - 24) /\
        free_list st' = NULL)).
Proof.
  intros s chunk brk Hb Htop [Hm0 Hm1] Hnz Hfl Hbrk.
  pose proof (ALIGN_bounds size Hm0 ltac:(lia)) as Hal. fold s in Hal.
  split; [exact Hal|].
  assert (Htop' : heap_base + HEAP_SIZE < 2 ^ 64) by lia.
  pose proof Hbrk as [Hlo Hhi]. fold brk in Hlo, Hhi.
  assert (Hs0 : 0 <= s) by lia.
  assert (Hw : s + HEADER_SIZE + WORD < 2 ^ 64)
    by (unfold HEADER_SIZE, WORD; lia).
  assert (Hnw : program_break st + chunk < 2 ^ 64)
    by (fold brk; unfold chunk, HEADER_SIZE, HEAP_SIZE in *; lia).
  assert (Hfl' : 0 <= free_list st < 2 ^ 64) by (rewrite Hfl; unfold NULL; lia).
  assert (Hunf : HmmAlloc heap_base (S fuel) st size =
                 ('(st1, block) <- grow heap_base st s ;;
                  if block =? NULL then Done (st1, NULL)
                  else st2 <- put_free heap_base st1 block 0 ;;
                       Done (st2, block + HEADER_SIZE))).
  { unfold HmmAlloc.
    replace (size =? 0) with false by (symmetry; now apply Z.eqb_neq).
    unfold find_free_block. rewrite Hfl. reflexivity. }
  rewrite Hunf. split.
  - intros Hover.
    rewrite (proj1 (grow_within_bounds heap_base Hb Htop' st s Hs0 Hw Hnw Hbrk Hfl')
               Hover).
    reflexivity.
  - intros Hfit.
    destruct (grow_detail heap_base Hb Htop' st s Hs0 Hw Hnw Hbrk Hfl' Hfit)
      as (st1 & Hrun & Hpb & Hfr & Hheap & Hcase).
    fold brk in Hrun, Hpb, Hfr, Hheap, Hcase. fold chunk in Hpb, Hheap, Hcase.
    rewrite Hrun. cbn [bind].
    replace (brk =? NULL) with false
      by (symmetry; apply Z.eqb_neq; unfold NULL; lia).
    pose proof (load_done heap_base 4 st1 _ _ Hfr) as [Hin _].
    destruct (store_ok heap_base 4 st1 _ 0 Hin) as (st2 & Hst2).
    unfold put_free. rewrite Hst2. cbn [bind].
    pose proof (store_globals heap_base _ _ _ _ _ Hst2) as [P2 F2].
    assert (Hc : 1024 * 16 <= chunk) by (unfold chunk; lia).
    exists st2. split; [reflexivity|]. split; [congruence|].
    split.
    { unfold get_free.
      rewrite (load_store_same heap_base 4 st1 st2 _ _ Hst2). reflexivity. }
    split.
    { intros i Hi. rewrite <- (Hheap i Hi).
      apply (store_heap_outside heap_base 4 st1 st2 _ _ i Hst2). zsizes. lia. }
    destruct Hcase as [(Hlt & Hsz & Hfl1 & Hrsz & Hrfr & Hrnx) |
                       (Hge & Hsz & Hfl1)].
    + left. split; [exact Hlt|]. split.
      { unfold get_size in *. rewrite <- Hsz.
        apply (load_store_apart heap_base 4 8 st1 st2 _ _ _ Hst2). zsizes. lia. }
      rewrite F2, Hfl1. cbn [is_list blk_addr blk_size blk_free].
      split; [reflexivity|]. split; [unfold NULL; lia|].
      split.
      { unfold get_size in *. rewrite <- Hrsz.
        apply (load_store_apart heap_base 4 8 st1 st2 _ _ _ Hst2). zsizes. lia. }
      split.
      { exists 1. split; [|reflexivity].
        unfold get_free in *. rewrite <- Hrfr.
        apply (load_store_apart heap_base 4 4 st1 st2 _ _ _ Hst2). zsizes. lia. }
      exists NULL. split; [|reflexivity].
      unfold get_next in *. rewrite <- Hfl, <- Hrnx.
      apply (load_store_apart heap_base 4 8 st1 st2 _ _ _ Hst2). zsizes. lia.
    + right. split; [exact Hge|]. split; [|congruence].
      unfold get_size in *. rewrite <- Hsz.
      apply (load_store_apart heap_base 4 8 st1 st2 _ _ _ Hst2). zsizes. lia.
Qed.

(** X4: HmmAlloc on an empty free list, for a request of at most [2^62]
    bytes.  With [s] the aligned size and [chunk = max (s + 24) 16 KiB]: if
    the chunk does not fit between the break and the end of the array the
    answer is NULL and the state is kept; otherwise the answer is the
    payload address 24 bytes past the old break, the break advances by
    exactly [chunk], the block is flagged allocated, no byte outside the
    new chunk is written, and either the block has size [s] and the rest of
    the chunk is the only block of the free list, or (when fewer than 33
    bytes would be left) the block keeps the whole chunk and the free list
    stays empty. *)
Theorem HmmAlloc_on_empty_free_list (heap_base : Z) (fuel : nat)
    (st : state) (size : Z) :
  let s := ALIGN size in
  let chunk := Z.max (s + HEADER_SIZE) (1024 * 16) in
  let brk := program_break st in
  0 < heap_base ->
  heap_base + HEAP_SIZE <= 2 ^ 63 ->
  modest size ->
  size <> 0 ->
  free_list st = NULL ->
  break_in_arena heap_base st ->
  size <= s <= size + 7 /\
  (HEAP_SIZE < brk - heap_base + chunk ->
     HmmAlloc heap_base (S fuel) st size = Done (st, NULL)) /\
  (brk - heap_base + chunk <= HEAP_SIZE ->
     exists st',
       HmmAlloc heap_base (S fuel) st size = Done (st', brk + HEADER_SIZE) /\
       program_break st' = brk + chunk /\
       get_free heap_base st' brk = Done 0 /\
       (forall i, i < brk - heap_base \/ brk - heap_base + chunk <= i ->
                  heap st' i = heap st i) /\
       (s + 32 < chunk - 24 /\
        get_size heap_base st' brk = Done s /\
        is_list heap_base st' (free_list st')
          [mkBlock (brk + 24 + s) (chunk - 48 - s) true]
        \/
        chunk - 24 <= s + 32 /\
        get_size heap_base st' brk = Done (chunk - 24) /\
        free_list st' = NULL)).
Proof. exact (HmmAlloc_grows heap_base fuel st size). Qed.

Lemma HmmAlloc_on_empty_free_list_witness :
  exists st',
    HmmAlloc heap_at 1 (initial heap_at) 13 = Done (st', heap_at + HEADER_SIZE) /\
    program_break st' = heap_at + 1024 * 16 /\
    get_size heap_at st' heap_at = Done 16 /\
    is_list heap_at st' (free_list st') [mkBlock (heap_at + 40) 16320 true].
Proof.
  destruct (HmmAlloc_on_empty_free_list heap_at 0 (initial heap_at) 13
              ltac:(unfold heap_at; lia)
              ltac:(unfold heap_at, HEAP_SIZE; lia)
              ltac:(unfold modest; lia) ltac:(lia) ltac:(reflexivity)
              ltac:(split; vm_compute; discriminate))
    as (_ & _ & Hfit).
  destruct (Hfit ltac:(vm_compute; discriminate))
    as (st' & Hrun & Hpb & _ & _ & [(_ & Hsz & Hl) | (Hge & _)]).
  - exists st'. split; [exact Hrun|]. split; [exact Hpb|].
    split; [exact Hsz|]. exact Hl.
  - exfalso. vm_compute in Hge. apply Hge. reflexivity.
Defined.

(** ** Allocation from the head of the free list (lines 42-60, 83-100) *)

(** Allocation from the head of the list, in full. *)
Lemma HmmAlloc_takes_head (heap_base : Z) (fuel : nat) (st : state)
    (size bsz fr nx : Z) :
  let s := ALIGN size in
  let head := free_list st in
  0 < heap_base ->
  heap_base + HEAP_SIZE <= 2 ^ 63 ->
  modest size ->
  size <> 0 ->
  in_heap heap_base head HEADER_SIZE = true ->
  get_free heap_base st head = Done fr ->
  fr <> 0 ->
  get_size heap_base st head = Done bsz ->
  s <= bsz ->
  get_next heap_base st head = Done nx ->
  (s + 32 <= bsz -> in_heap heap_base (head + 24 + s) HEADER_SIZE = true) ->
  exists st',
    HmmAlloc heap_base (S fuel) st size = Done (st', head + HEADER_SIZE) /\
    program_break st' = program_break st /\
    get_free heap_base st' head = Done 0 /\
    (forall i,
       i < head - heap_base \/ head - heap_base + 24 <= i ->
       i < head + 24 + s - heap_base \/ head + 24 + s - heap_base + 24 <= i ->
       heap st' i = heap st i) /\
    (bsz < s + 32 /\
     get_size heap_base st' head = Done bsz /\
     free_list st' = nx
     \/
     s + 32 <= bsz /\
     get_size heap_base st' head = Done s /\
     free_list st' = head + 24 + s /\
     get_size heap_base st' (head + 24 + s) = Done (bsz - s - 24) /\
     get_free heap_base st' (head + 24 + s) = Done 1 /\
     get_next heap_base st' (head + 24 + s) = Done nx).
Proof.
  intros s head Hb Htop [Hm0 Hm1] Hnz Hin Hfr Hfr0 Hsz Hle Hnx Hrem.
  pose proof (ALIGN_bounds size Hm0 ltac:(lia)) as Hal. fold s in Hal.
  assert (Htop' : heap_base + HEAP_SIZE < 2 ^ 64) by lia.
  pose proof Hin as Hin'. apply in_heap_true in Hin'. unfold HEADER_SIZE in Hin'.
  assert (Hhead : head <> NULL) by (unfold NULL; lia).
  pose proof (load_done heap_base 8 st _ _ Hnx) as [_ Hnxv].
  pose proof (le_load_bound 8 (heap st) (head + 8 - heap_base)) as Hnxb.
  rewrite <- Hnxv in Hnxb. zsizes. clear Hnxv.
  set (st1 := set_free_list st nx).
  assert (Hunf : HmmAlloc heap_base (S fuel) st size =
                 (st2 <- split_block heap_base st1 head s ;;
                  st3 <- put_free heap_base st2 head 0 ;;
                  Done (st3, head + HEADER_SIZE))).
  { unfold HmmAlloc.
    replace (size =? 0) with false by (symmetry; now apply Z.eqb_neq).
    unfold find_free_block. fold s head. cbn [find_loop].
    replace (head =? NULL) with false by (symmetry; now apply Z.eqb_neq).
    rewrite Hfr. cbn [bind].
    replace (fr =? 0) with false by (symmetry; now apply Z.eqb_neq).
    rewrite Hsz. cbn [bind].
    replace (s <=? bsz) with true by (symmetry; now apply Z.leb_le).
    rewrite Hnx. cbn [bind]. change (NULL =? NULL) with true. cbv iota.
    cbn [bind]. fold st1.
    destruct (split_block heap_base st1 head s); cbn [bind]; try reflexivity.
    replace (head =? NULL) with false by (symmetry; now apply Z.eqb_neq).
    reflexivity. }
  rewrite Hunf.
  assert (Hi4 : in_heap heap_base (head + 16) (Z.of_nat 4) = true)
    by (apply in_heap_true; zsizes; lia).
  destruct (Z_lt_le_dec bsz (s + 32)) as [Hsmall | Hbig].
  - rewrite (split_block_whole heap_base st1 head s bsz ltac:(lia)
               ltac:(unfold HEADER_SIZE, WORD; lia) Hsz
               ltac:(unfold HEADER_SIZE, WORD; lia)).
    cbn [bind].
    destruct (store_ok heap_base 4 st1 _ 0 Hi4) as (st3 & H3).
    unfold put_free. rewrite H3. cbn [bind].
    pose proof (store_globals heap_base _ _ _ _ _ H3) as [P3 F3].
    exists st3. split; [reflexivity|]. split; [exact P3|].
    split.
    { unfold get_free.
      rewrite (load_store_same heap_base 4 st1 st3 _ _ H3). reflexivity. }
    split.
    { intros i Hi _.
      apply (store_heap_outside heap_base 4 st1 st3 _ _ i H3). zsizes. lia. }
    left. split; [exact Hsmall|]. split; [|exact F3].
    unfold get_size in *. rewrite <- Hsz.
    apply (load_store_apart heap_base 4 8 st1 st3 _ _ _ H3). zsizes. lia.
  - destruct (split_block_no_wrap_aux heap_base Hb Htop' st1 head s bsz
                ltac:(lia) ltac:(cbn; lia) Hin (Hrem Hbig) Hsz
                ltac:(unfold HEADER_SIZE, WORD; lia))
      as (st2 & Hrun & Hbsz & Hbfr & Hrsz & Hrfr & Hrnx & Hfl2 & Hpb2 & Hheap2).
    unfold HEADER_SIZE in *.
    rewrite Hrun. cbn [bind].
    destruct (store_ok heap_base 4 st2 _ 0 Hi4) as (st3 & H3).
    unfold put_free. rewrite H3. cbn [bind].
    pose proof (store_globals heap_base _ _ _ _ _ H3) as [P3 F3].
    pose proof (Hrem Hbig) as Hr. apply in_heap_true in Hr.
    exists st3. split; [reflexivity|].
    split; [rewrite P3, Hpb2; reflexivity|].
    split.
    { unfold get_free.
      rewrite (load_store_same heap_base 4 st2 st3 _ _ H3). reflexivity. }
    split.
    { intros i Hi1 Hi2.
      rewrite (store_heap_outside heap_base 4 st2 st3 _ _ i H3) by (zsizes; lia).
      apply Hheap2; lia. }
    right. split; [exact Hbig|].
    unfold get_size, get_free, get_next in *.
    split.
    { rewrite <- Hbsz.
      apply (load_store_apart heap_base 4 8 st2 st3 _ _ _ H3). zsizes. lia. }
    split; [congruence|].
    split.
    { rewrite <- Hrsz.
      apply (load_store_apart heap_base 4 8 st2 st3 _ _ _ H3). zsizes. lia. }
    split.
    { rewrite <- Hrfr.
      apply (load_store_apart heap_base 4 4 st2 st3 _ _ _ H3). zsizes. lia. }
    change (free_list st1) with nx in Hrnx. rewrite <- Hrnx.
    apply (load_store_apart heap_base 4 8 st2 st3 _ _ _ H3). zsizes. lia.
Qed.

(** X5: when the first block of the free list is flagged free and holds at
    least the aligned size [s] of a request of at most [2^62] bytes,
    HmmAlloc returns that block's payload address without moving the
    break and flags the block allocated.  A block of fewer than [s + 32]
    bytes is handed out whole and the list head becomes its successor;
    a larger one (whose remainder header lies in the array) is cut to [s]
    bytes and the remainder, of [size - s - 24] bytes and flagged free,
    becomes the list head in front of the successor.  No byte outside the
    block's header and the remainder's header is written. *)
Theorem HmmAlloc_reuses_head (heap_base : Z) (fuel : nat) (st : state)
    (size bsz fr nx : Z) :
  let s := ALIGN size in
  let head := free_list st in
  0 < heap_base ->
  heap_base + HEAP_SIZE <= 2 ^ 63 ->
  modest size ->
  size <> 0 ->
  in_heap heap_base head HEADER_SIZE = true ->
  get_free heap_base st head = Done fr ->
  fr <> 0 ->
  get_size heap_base st head = Done bsz ->
  s <= bsz ->
  get_next heap_base st head = Done nx ->
  (s + 32 <= bsz -> in_heap heap_base (head + 24 + s) HEADER_SIZE = true) ->
  exists st',
    HmmAlloc heap_base (S fuel) st size = Done (st', head + HEADER_SIZE) /\
    program_break st' = program_break st /\
    get_free heap_base st' head = Done 0 /\
    (forall i,
       i < head - heap_base \/ head - heap_base + 24 <= i ->
       i < head + 24 + s - heap_base \/ head + 24 + s - heap_base + 24 <= i ->
       heap st' i = heap st i) /\
    (bsz < s + 32 /\
     get_size heap_base st' head = Done bsz /\
     free_list st' = nx
     \/
     s + 32 <= bsz /\
     get_size heap_base st' head = Done s /\
     free_list st' = head + 24 + s /\
     get_size heap_base st' (head + 24 + s) = Done (bsz - s - 24) /\
     get_free heap_base st' (head + 24 + s) = Done 1 /\
     get_next heap_base st' (head + 24 + s) = Done nx).
Proof. exact (HmmAlloc_takes_head heap_base fuel st size bsz fr nx). Qed.

Lemma HmmAlloc_reuses_head_witness :
  exists st',
    HmmAlloc heap_at 1 three_blocks 5 = Done (st', heap_at + 1000 + HEADER_SIZE) /\
    program_break st' = program_break three_blocks /\
    get_free heap_at st' (heap_at + 1000) = Done 0 /\
    get_size heap_at st' (heap_at + 1000) = Done 8 /\
    free_list st' = heap_at.
Proof.
  destruct (HmmAlloc_reuses_head heap_at 0 three_blocks 5 8 1 heap_at
              ltac:(unfold heap_at; lia)
              ltac:(unfold heap_at, HEAP_SIZE; lia)
              ltac:(unfold modest; lia) ltac:(lia)
              ltac:(reflexivity) ltac:(reflexivity) ltac:(lia)
              ltac:(reflexivity) ltac:(vm_compute; discriminate)
              ltac:(reflexivity)
              ltac:(intros Hbig; exfalso; vm_compute in Hbig; now apply Hbig))
    as (st' & Hrun & Hpb & Hfr & _ & [(_ & Hsz & Hfl) | (Hbig & _)]).
  - exists st'. repeat split; assumption.
  - exfalso. vm_compute in Hbig. now apply Hbig.
Defined.

(** ** HmmFree and the merger (lines 63-78, 158-182) *)

Section Free.

Variable heap_base : Z.
Hypothesis heap_base_pos : 0 < heap_base.
Hypothesis heap_in_address_space : heap_base + HEAP_SIZE <= 2 ^ 64.

Ltac across H :=
  rewrite (load_store_apart heap_base _ _ _ _ _ _ _ H) by (zsizes; lia).

Ltac heads :=
  unfold put_size, put_next, put_free in *;
  repeat match goal with
         | H : store _ _ _ _ _ = Done _ |- _ =>
             apply store_globals in H as [_ ?]
         end.

Lemma merge_loop_free_list (fuel : nat) :
  forall (st st' : state) (current : Z),
  merge_loop heap_base fuel st current = Done st' ->
  free_list st' = free_list st.
Proof.
  induction fuel as [|fuel IH]; intros st st' current E;
    cbn [merge_loop] in E; [discriminate|].
  destruct (current =? NULL); [inversion E; reflexivity|].
  bind_inv E. destruct (a =? NULL); [inversion E; reflexivity|].
  do 2 bind_inv E. destruct a1.
  - do 7 bind_inv E. apply IH in E. heads. congruence.
  - bind_inv E. now apply IH in E.
Qed.

(** After a free that returns, the block freed is the head of the list. *)
Lemma HmmFree_head (fuel : nat) (st st' : state) (ptr : Z) :
  ptr <> NULL ->
  HmmFree heap_base fuel st ptr = Done st' ->
  free_list st' = ptr - HEADER_SIZE.
Proof.
  intros Hp. unfold HmmFree.
  replace (ptr =? NULL) with false by (symmetry; now apply Z.eqb_neq).
  intros E. do 2 bind_inv E. apply merge_loop_free_list in E.
  unfold add_to_free_list in E1. bind_inv E1. inversion E1; subst.
  rewrite E. reflexivity.
Qed.

(** Freeing the block that is already the head of the free list links
    the block to itself, and the merger absorbs it into itself for ever. *)
Lemma HmmFree_of_head (st : state) (ptr : Z) :
  in_heap heap_base (ptr - HEADER_SIZE) HEADER_SIZE = true ->
  free_list st = ptr - HEADER_SIZE ->
  forall fuel : nat, HmmFree heap_base fuel st ptr = Timeout.
Proof.
  intros Hin Hfl fuel.
  set (b := ptr - HEADER_SIZE) in *.
  apply in_heap_true in Hin. unfold HEADER_SIZE in Hin.
  unfold HmmFree.
  replace (ptr =? NULL) with false
    by (symmetry; apply Z.eqb_neq; unfold NULL, b, HEADER_SIZE in *; lia).
  fold b.
  assert (Hi4 : in_heap heap_base (b + 16) (Z.of_nat 4) = true)
    by (apply in_heap_true; zsizes; lia).
  assert (Hi8 : in_heap heap_base (b + 8) (Z.of_nat 8) = true)
    by (apply in_heap_true; zsizes; lia).
  assert (Hi0 : in_heap heap_base b (Z.of_nat 8) = true)
    by (apply in_heap_true; zsizes; lia).
  destruct (store_ok heap_base 4 st _ 1 Hi4) as (s1 & H1).
  unfold put_free. rewrite H1. cbn [bind].
  unfold add_to_free_list, put_next.
  destruct (store_ok heap_base 8 s1 _ (free_list s1) Hi8) as (s2 & H2).
  rewrite H2. cbn [bind].
  unfold merge_free_blocks. cbn [free_list set_free_list].
  destruct (load_ok heap_base 8 s2 _ Hi0) as (sb & Hsb & _).
  apply (merge_loop_spins heap_base fuel (set_free_list s2 b) b 1 sb).
  - unfold NULL. lia.
  - unfold get_next. rewrite load_set_free_list.
    rewrite (load_store_same heap_base 8 s1 s2 _ _ H2).
    f_equal. pose proof (store_globals heap_base _ _ _ _ _ H1) as [_ F1].
    rewrite F1, Hfl. apply Z.mod_small. zsizes. unfold HEAP_SIZE in *. lia.
  - unfold get_free. rewrite load_set_free_list. across H2.
    apply (load_store_same heap_base 4 st s1 _ 1 H1).
  - discriminate.
  - exact Hsb.
Qed.

Lemma merge_pass_head (rest : list block) :
  forall cur : block,
  exists sz tail,
    merge_pass cur rest = mkBlock (blk_addr cur) sz (blk_free cur) :: tail.
Proof.
  induction rest as [|nxt rest IH]; intros cur; cbn [merge_pass].
  - exists (blk_size cur), []. now destruct cur.
  - destruct (blk_free cur && blk_free nxt).
    + apply (IH (absorb cur nxt)).
    + exists (blk_size cur), (merge_pass nxt rest). now destruct cur.
Qed.

Lemma merge_pass_length (rest : list block) :
  forall cur : block,
  (length (merge_pass cur rest) <= S (length rest))%nat.
Proof.
  induction rest as [|nxt rest IH]; intros cur; cbn [merge_pass length].
  - lia.
  - destruct (blk_free cur && blk_free nxt); cbn [length].
    + specialize (IH (absorb cur nxt)). lia.
    + specialize (IH nxt). lia.
Qed.

(** The pass leaves no two free list neighbours. *)
Lemma merge_pass_no_free_pair (rest : list block) :
  forall cur : block, no_free_pair (merge_pass cur rest).
Proof.
  induction rest as [|nxt rest IH]; intros cur; cbn [merge_pass].
  - exact I.
  - destruct (blk_free cur && blk_free nxt) eqn:Eb.
    + apply IH.
    + destruct (merge_pass_head rest nxt) as (sz & tail & Hm).
      specialize (IH nxt). rewrite Hm in IH |- *.
      cbn [no_free_pair blk_free]. split; [exact Eb|exact IH].
Qed.

(** A pass over a list without free neighbours writes nothing. *)
Lemma merge_loop_idle (l : list block) :
  forall (st : state) (p : Z) (fuel : nat),
  is_list heap_base st p l ->
  no_free_pair l ->
  (length l < fuel)%nat ->
  merge_loop heap_base fuel st p = Done st.
Proof.
  induction l as [|a l IH]; intros st p fuel Hl Hn Hfuel.
  - destruct fuel; [cbn in Hfuel; lia|]. cbn in Hl. subst. reflexivity.
  - destruct fuel as [|fuel]; [cbn in Hfuel; lia|].
    cbn [length] in Hfuel. cbn [is_list] in Hl.
    destruct Hl as (-> & Hnn & Hsz & (fa & Hfa & Hba) & nx & Hnx & Hl).
    cbn [merge_loop].
    replace (blk_addr a =? NULL) with false by (symmetry; now apply Z.eqb_neq).
    rewrite Hnx. cbn [bind].
    destruct l as [|b l'].
    + cbn in Hl. subst. reflexivity.
    + pose proof Hl as Hl0. cbn [is_list] in Hl.
      destruct Hl as (-> & Hnn' & _ & (fb & Hfb & Hbb) & _).
      replace (blk_addr b =? NULL) with false by (symmetry; now apply Z.eqb_neq).
      rewrite Hfa. cbn [bind].
      destruct Hn as [Hpair Hn].
      assert (Hboth :
        (if fa =? 0 then Done false
         else fn <- get_free heap_base st (blk_addr b) ;; Done (negb (fn =? 0)))
        = Done false).
      { rewrite <- Hpair, Hba, Hbb. destruct (fa =? 0); cbn; [reflexivity|].
        rewrite Hfb. reflexivity. }
      rewrite Hboth. cbn [bind].
      apply (IH st (blk_addr b) fuel Hl0 Hn). cbn [length] in *. lia.
Qed.


(** HmmFree on a proper free list: the block is flagged free, put in
    front, and the pass runs over the list so extended. *)
Lemma HmmFree_list (fuel : nat) (st : state) (ptr sz : Z) (l : list block) :
  let b := ptr - HEADER_SIZE in
  in_heap heap_base b HEADER_SIZE = true ->
  get_size heap_base st b = Done sz ->
  is_list heap_base st (free_list st) l ->
  separated (mkBlock b sz true :: l) ->
  (S (length l) < fuel)%nat ->
  exists st',
    HmmFree heap_base fuel st ptr = Done st' /\
    is_list heap_base st' (free_list st') (merge_pass (mkBlock b sz true) l) /\
    free_list st' = b /\
    program_break st' = program_break st /\
    (forall i, outside heap_base (mkBlock b sz true :: l) i ->
               heap st' i = heap st i).
Proof.
  intros b Hin Hsz Hl Hsep Hfuel.
  pose proof Hin as Hin'. apply in_heap_true in Hin'. unfold HEADER_SIZE in Hin'.
  assert (Hflr : 0 <= free_list st < 2 ^ 64).
  { destruct l as [|c l'].
    - cbn in Hl. rewrite Hl. unfold NULL. lia.
    - cbn [is_list] in Hl. destruct Hl as (Hc & _ & Hcs & _).
      apply load_done in Hcs as [Hci _].
      apply in_heap_true in Hci. zsizes. unfold HEAP_SIZE in *. lia. }
  unfold HmmFree.
  replace (ptr =? NULL) with false
    by (symmetry; apply Z.eqb_neq; unfold NULL, b, HEADER_SIZE in *; lia).
  fold b.
  assert (Hi4 : in_heap heap_base (b + 16) (Z.of_nat 4) = true)
    by (apply in_heap_true; zsizes; lia).
  assert (Hi8 : in_heap heap_base (b + 8) (Z.of_nat 8) = true)
    by (apply in_heap_true; zsizes; lia).
  destruct (store_ok heap_base 4 st _ 1 Hi4) as (s1 & H1).
  unfold put_free. rewrite H1. cbn [bind].
  unfold add_to_free_list, put_next.
  destruct (store_ok heap_base 8 s1 _ (free_list s1) Hi8) as (s2 & H2).
  rewrite H2. cbn [bind].
  pose proof (store_globals heap_base _ _ _ _ _ H1) as [P1 F1].
  pose proof (store_globals heap_base _ _ _ _ _ H2) as [P2 F2].
  unfold merge_free_blocks. cbn [free_list set_free_list].
  cbn [separated] in Hsep. destruct Hsep as [Hap Hsep].
  assert (Hheap2 : forall i,
             i < b - heap_base \/ b - heap_base + HEADER_SIZE <= i ->
             heap (set_free_list s2 b) i = heap st i).
  { intros i Hi. unfold HEADER_SIZE in Hi. cbn [heap set_free_list].
    rewrite (store_heap_outside heap_base 8 s1 s2 _ _ i H2) by (zsizes; lia).
    apply (store_heap_outside heap_base 4 st s1 _ _ i H1). zsizes. lia. }
  assert (Hl2 : is_list heap_base (set_free_list s2 b) b (mkBlock b sz true :: l)).
  { cbn [is_list blk_addr blk_size blk_free].
    split; [reflexivity|]. split; [unfold NULL; lia|].
    split.
    { unfold get_size in *. rewrite load_set_free_list, <- Hsz.
      across H2. apply (load_store_apart heap_base 4 8 st s1 _ _ 1 H1).
      zsizes. lia. }
    split.
    { exists 1. split; [|reflexivity].
      unfold get_free. rewrite load_set_free_list. across H2.
      apply (load_store_same heap_base 4 st s1 _ 1 H1). }
    exists (free_list st). split.
    { unfold get_next. rewrite load_set_free_list.
      rewrite (load_store_same heap_base 8 s1 s2 _ _ H2).
      f_equal. rewrite F1. apply Z.mod_small. zsizes. lia. }
    apply (is_list_frame heap_base l st (set_free_list s2 b) (free_list st));
      [|exact Hl].
    intros i Hi. apply Hheap2.
    destruct (Z_lt_dec i (b - heap_base)); [now left|].
    destruct (Z_le_dec (b - heap_base + HEADER_SIZE) i); [now right|].
    exfalso. apply Hi.
    apply (outside_head_of_apart heap_base (mkBlock b sz true));
      [exact Hap|cbn [blk_addr]; lia]. }
  destruct (merge_loop_pass heap_base l (mkBlock b sz true)
              (set_free_list s2 b) fuel Hl2
              ltac:(cbn [separated]; auto) ltac:(lia))
    as (st' & Hrun & Hl' & Hfl' & Hpb' & Hfr').
  cbn [blk_addr] in Hrun, Hl'. exists st'.
  split; [exact Hrun|]. rewrite Hfl'. cbn [free_list set_free_list].
  split; [exact Hl'|]. split; [reflexivity|].
  split; [rewrite Hpb'; cbn [program_break set_free_list]; congruence|].
  intros i Ho. rewrite (Hfr' i Ho). apply Hheap2.
  inversion Ho as [|? ? Hc _]; subst. cbn [blk_addr] in Hc. exact Hc.
Qed.

End Free.

(** X6: a call of HmmFree that returns never moves the program break;
    with a NULL pointer it changes nothing at all, and with any other
    pointer it leaves the block of that pointer at the head of the free
    list, whatever the merger did. *)
Theorem HmmFree_result (heap_base : Z) (fuel : nat) (st st' : state) (ptr : Z) :
  HmmFree heap_base fuel st ptr = Done st' ->
  program_break st' = program_break st /\
  (ptr = NULL -> st' = st) /\
  (ptr <> NULL -> free_list st' = ptr - HEADER_SIZE).
Proof.
  intros E. split; [|split].
  - eapply HmmFree_break; eassumption.
  - intros ->. cbn in E. now inversion E.
  - intros Hp. eapply HmmFree_head; eassumption.
Qed.

Lemma HmmFree_result_witness :
  program_break (final heap_at (HmmFree heap_at 4 after_first_alloc (heap_at + 24)))
    = program_break after_first_alloc /\
  free_list (final heap_at (HmmFree heap_at 4 after_first_alloc (heap_at + 24)))
    = heap_at + 24 - HEADER_SIZE.
Proof.
  destruct (HmmFree_result heap_at 4 after_first_alloc
              (final heap_at (HmmFree heap_at 4 after_first_alloc (heap_at + 24)))
              (heap_at + 24)) as (Hpb & _ & Hfl).
  - apply done_final. vm_compute. reflexivity.
  - split; [exact Hpb|]. apply Hfl. vm_compute. discriminate.
Defined.

(** X7: HmmFree on a proper free list, for a pointer whose header lies in
    the array clear of the list's headers: the call returns, and the free
    list it leaves is the single forward pass of the merger over the old
    list with the freed block, flagged free, put in front.  The break is
    kept and no byte outside these headers is written. *)
Theorem HmmFree_pushes_and_merges (heap_base : Z) (fuel : nat) (st : state)
    (ptr sz : Z) (l : list block) :
  let b := ptr - HEADER_SIZE in
  0 < heap_base ->
  heap_base + HEAP_SIZE <= 2 ^ 64 ->
  in_heap heap_base b HEADER_SIZE = true ->
  get_size heap_base st b = Done sz ->
  is_list heap_base st (free_list st) l ->
  separated (mkBlock b sz true :: l) ->
  (S (length l) < fuel)%nat ->
  exists st',
    HmmFree heap_base fuel st ptr = Done st' /\
    is_list heap_base st' (free_list st') (merged (mkBlock b sz true :: l)) /\
    free_list st' = b /\
    program_break st' = program_break st /\
    (forall i, outside heap_base (mkBlock b sz true :: l) i ->
               heap st' i = heap st i).
Proof.
  intros b Hb Htop Hin Hsz Hl Hsep Hfuel.
  exact (HmmFree_list heap_base Hb Htop fuel st ptr sz l Hin Hsz Hl Hsep Hfuel).
Qed.

Lemma three_blocks_is_list :
  is_list heap_at three_blocks (free_list three_blocks)
    [mkBlock (heap_at + 1000) 8 true; mkBlock heap_at 16 true;
     mkBlock (heap_at + 2000) 32 false].
Proof.
  cbn [is_list blk_addr blk_size blk_free].
  repeat (split; [vm_compute; congruence|]).
  split; [exists 1; split; reflexivity|].
  exists heap_at.
  repeat (split; [vm_compute; congruence|]).
  split; [exists 1; split; reflexivity|].
  exists (heap_at + 2000).
  repeat (split; [vm_compute; congruence|]).
  split; [exists 0; split; reflexivity|].
  exists NULL. split; reflexivity.
Defined.

Lemma HmmFree_pushes_and_merges_witness :
  exists st',
    HmmFree heap_at 5 three_blocks (heap_at + 3024) = Done st' /\
    is_list heap_at st' (free_list st')
      [mkBlock (heap_at + 3000) 72 true; mkBlock (heap_at + 2000) 32 false] /\
    free_list st' = heap_at + 3000 /\
    program_break st' = program_break three_blocks.
Proof.
  destruct (HmmFree_pushes_and_merges heap_at 5 three_blocks (heap_at + 3024) 0
              [mkBlock (heap_at + 1000) 8 true; mkBlock heap_at 16 true;
               mkBlock (heap_at + 2000) 32 false]
              ltac:(unfold heap_at; lia)
              ltac:(unfold heap_at, HEAP_SIZE; lia)
              ltac:(reflexivity) ltac:(reflexivity)
              three_blocks_is_list)
    as (st' & Hrun & Hl & Hfl & Hpb & _).
  - cbn [separated]. unfold apart, heap_at, HEADER_SIZE. cbn [blk_addr].
    repeat (first [apply Forall_nil | apply Forall_cons | split]);
      first [exact I | cbn; lia].
  - cbn. lia.
  - exists st'. split; [exact Hrun|]. split; [exact Hl|]. split; assumption.
Defined.




(** X9: on a proper free list the merger is idempotent: a second run of
    merge_free_blocks right after the first returns the state it is given,
    without a single write. *)
Theorem merge_free_blocks_twice (heap_base : Z) (fuel : nat) (st : state)
    (l : list block) :
  is_list heap_base st (free_list st) l ->
  separated l ->
  (length l < fuel)%nat ->
  exists st',
    merge_free_blocks heap_base fuel st = Done st' /\
    merge_free_blocks heap_base fuel st' = Done st'.
Proof.
  intros Hl Hsep Hfuel. unfold merge_free_blocks.
  destruct l as [|cur rest].
  - cbn [is_list] in Hl. rewrite Hl.
    destruct fuel as [|fuel]; [cbn in Hfuel; lia|].
    exists st. cbn. rewrite Hl. auto.
  - pose proof Hl as Hl0. cbn [is_list] in Hl0. destruct Hl0 as (Hp & _).
    rewrite Hp in Hl |- *. cbn [length] in Hfuel.
    destruct (merge_loop_pass heap_base rest cur st fuel Hl Hsep ltac:(lia))
      as (st' & Hrun & Hl' & Hfl & _).
    exists st'. split; [exact Hrun|].
    rewrite Hfl, Hp.
    apply (merge_loop_idle heap_base (merge_pass cur rest) st' (blk_addr cur)
             fuel Hl' (merge_pass_no_free_pair rest cur)).
    pose proof (merge_pass_length rest cur). lia.
Qed.

Lemma merge_free_blocks_twice_witness :
  exists st',
    merge_free_blocks heap_at 4 three_blocks = Done st' /\
    merge_free_blocks heap_at 4 st' = Done st'.
Proof.
  apply (merge_free_blocks_twice heap_at 4 three_blocks
           [mkBlock (heap_at + 1000) 8 true; mkBlock heap_at 16 true;
            mkBlock (heap_at + 2000) 32 false]
           three_blocks_is_list).
  - cbn [separated]. unfold apart, heap_at, HEADER_SIZE. cbn [blk_addr].
    repeat (first [apply Forall_nil | apply Forall_cons | split]);
      first [exact I | cbn; lia].
  - cbn. lia.
Defined.

(** X10: a double free hangs.  When HmmFree has returned for a pointer
    whose header lies in the array, a second HmmFree of the same pointer,
    made at once, never returns: the block is still the head of the free
    list, add_to_free_list links it to itself, and merge_free_blocks
    absorbs it into itself for ever. *)
Theorem double_free_never_returns (heap_base : Z) (fuel : nat)
    (st st' : state) (ptr : Z) :
  0 < heap_base ->
  heap_base + HEAP_SIZE <= 2 ^ 64 ->
  in_heap heap_base (ptr - HEADER_SIZE) HEADER_SIZE = true ->
  HmmFree heap_base fuel st ptr = Done st' ->
  forall fuel' : nat, HmmFree heap_base fuel' st' ptr = Timeout.
Proof.
  intros Hb Htop Hin E fuel'.
  apply (HmmFree_of_head heap_base Hb Htop st' ptr Hin).
  apply (HmmFree_head heap_base fuel st st' ptr); [|exact E].
  apply in_heap_true in Hin. unfold NULL, HEADER_SIZE in *. lia.
Qed.

Lemma double_free_never_returns_witness :
  HmmFree heap_at 1000
    (final heap_at (HmmFree heap_at 4 after_first_alloc (heap_at + 24)))
    (heap_at + 24) = Timeout.
Proof.
  apply (double_free_never_returns heap_at 4 after_first_alloc _ (heap_at + 24)).
  - unfold heap_at. lia.
  - unfold heap_at, HEAP_SIZE. lia.
  - reflexivity.
  - apply done_final. vm_compute. reflexivity.
Defined.

(** ** main (lines 186-202) *)

(** X11: wherever the array lies, main prints the same three pointers
    relative to it: the first block is the first chunk, the second block
    follows it at offset 262168, and the third request, made after the
    first block was freed, is served from that block, so the third pointer
    printed equals the first. *)
Theorem main_prints (heap_base : Z) (fuel : nat) :
  0 < heap_base ->
  heap_base + HEAP_SIZE <= 2 ^ 63 ->
  main_program heap_base (S (S fuel)) =
  Done (heap_base + 24, heap_base + 262192, heap_base + 24).
Proof.
  intros Hb Htop. unfold main_program.
  assert (Htop' : heap_base + HEAP_SIZE <= 2 ^ 64) by lia.
  (* ptr1 = HmmAlloc(256 * 1024) *)
  destruct (HmmAlloc_grows heap_base (S fuel) (initial heap_base) (256 * 1024)
              Hb Htop ltac:(unfold modest; lia) ltac:(lia) eq_refl
              ltac:(unfold break_in_arena, HEAP_SIZE; cbn; lia))
    as (_ & _ & Hfit1).
  change (ALIGN (256 * 1024)) with 262144 in Hfit1.
  cbn [program_break initial] in Hfit1. unfold HEADER_SIZE, HEAP_SIZE in Hfit1.
  rewrite Z.max_l in Hfit1 by lia.
  destruct (Hfit1 ltac:(lia))
    as (s1 & Hrun1 & Hpb1 & Hfr1 & _ & [(Habs & _) | (_ & Hsz1 & Hfl1)]);
    [lia|].
  rewrite Hrun1. cbn [bind]. clear Hfit1 Hrun1.
  replace (262144 + 24 - 24) with 262144 in Hsz1 by lia.
  (* ptr2 = HmmAlloc(128 * 1024) *)
  destruct (HmmAlloc_grows heap_base (S fuel) s1 (128 * 1024)
              Hb Htop ltac:(unfold modest; lia) ltac:(lia) Hfl1
              ltac:(unfold break_in_arena, HEAP_SIZE; rewrite Hpb1; lia))
    as (_ & _ & Hfit2).
  change (ALIGN (128 * 1024)) with 131072 in Hfit2.
  rewrite Hpb1 in Hfit2. unfold HEADER_SIZE, HEAP_SIZE in Hfit2.
  rewrite Z.max_l in Hfit2 by lia.
  destruct (Hfit2 ltac:(lia))
    as (s2 & Hrun2 & Hpb2 & Hfr2 & Hheap2 & [(Habs & _) | (_ & Hsz2 & Hfl2)]);
    [lia|].
  rewrite Hrun2. cbn [bind]. clear Hfit2 Hrun2.
  assert (Hsz1' : get_size heap_base s2 heap_base = Done 262144).
  { unfold get_size in *. rewrite <- Hsz1. apply load_frame.
    intros i Hi. apply Hheap2. zsizes. lia. }
  (* HmmFree(ptr1) *)
  destruct (HmmFree_list heap_base Hb Htop' (S (S fuel)) s2 (heap_base + 24)
              262144 [])
    as (s3 & Hrun3 & Hl3 & Hfl3 & Hpb3 & _).
  { apply in_heap_true. unfold HEADER_SIZE, HEAP_SIZE in *. lia. }
  { replace (heap_base + 24 - HEADER_SIZE) with heap_base
      by (unfold HEADER_SIZE; lia). exact Hsz1'. }
  { cbn [is_list]. exact Hfl2. }
  { cbn [separated]. auto. }
  { cbn [length]. lia. }
  rewrite Hrun3. cbn [bind]. clear Hrun3.
  replace (heap_base + 24 - HEADER_SIZE) with heap_base in *
    by (unfold HEADER_SIZE; lia).
  cbn [merge_pass is_list blk_addr blk_size blk_free] in Hl3.
  destruct Hl3 as (_ & _ & Hsz3 & (fr & Hfr3 & Hnz) & nx & Hnx3 & ->).
  rewrite Hfl3 in Hsz3, Hfr3, Hnx3.
  (* ptr3 = HmmAlloc(64 * 1024) *)
  destruct (HmmAlloc_takes_head heap_base (S fuel) s3 (64 * 1024) 262144 fr NULL
              Hb Htop ltac:(unfold modest; lia) ltac:(lia))
    as (s4 & Hrun4 & _).
  { rewrite Hfl3. apply in_heap_true. unfold HEADER_SIZE, HEAP_SIZE in *. lia. }
  { rewrite Hfl3. exact Hfr3. }
  { intros ->. cbn in Hnz. discriminate. }
  { rewrite Hfl3. exact Hsz3. }
  { change (ALIGN (64 * 1024)) with 65536. lia. }
  { rewrite Hfl3. exact Hnx3. }
  { intros _. rewrite Hfl3. change (ALIGN (64 * 1024)) with 65536.
    apply in_heap_true. unfold HEADER_SIZE, HEAP_SIZE in *. lia. }
  rewrite Hrun4. cbn [bind]. rewrite Hfl3. unfold HEADER_SIZE.
  replace (heap_base + (262144 + 24) + 24) with (heap_base + 262192) by lia.
  reflexivity.
Qed.

Lemma main_prints_witness :
  main_program heap_at 2 = Done (heap_at + 24, heap_at + 262192, heap_at + 24).
Proof.
  apply (main_prints heap_at 0); unfold heap_at, HEAP_SIZE; lia.
Defined.

(** ** The stress driver (hmm_rand.c) *)

(** X12: the driver's macro [MAX_ALLOCATION_SIZE] is not parenthesised, so
    the size it requests is [(rand() % 1024) * 64 + 1]: always one more
    than a multiple of 64, at least 1 and at most 65473 (never the 64 KiB
    of the comment), and HmmAlloc aligns it to that multiple of 64 plus
    8. *)
Theorem request_size_values (r : Z) :
  0 <= r ->
  request_size r = (r mod 1024) * 64 + 1 /\
  1 <= request_size r <= 65473 /\
  request_size r mod 64 = 1 /\
  ALIGN (request_size r) = (r mod 1024) * 64 + 8.
Proof.
  intros Hr.
  pose proof (Z.mod_pos_bound r 1024 ltac:(lia)) as Hm.
  assert (E : request_size r = (r mod 1024) * 64 + 1).
  { unfold request_size, wrap. rewrite Z.rem_mod_nonneg by lia.
    apply Z.mod_small. lia. }
  rewrite E. split; [reflexivity|]. split; [lia|]. split.
  - rewrite Z.add_comm, Z.mod_add by lia. reflexivity.
  - rewrite ALIGN_value. unfold wrap. rewrite Z.mod_small by lia.
    replace (r mod 1024 * 64 + 1 + 7) with (0 + (r mod 1024 * 8 + 1) * 8) by lia.
    rewrite Z.div_add by lia. change (0 / 8) with 0. lia.
Qed.

Lemma request_size_values_witness :
  request_size 2047 = (2047 mod 1024) * 64 + 1 /\
  1 <= request_size 2047 <= 65473 /\
  request_size 2047 mod 64 = 1 /\
  ALIGN (request_size 2047) = (2047 mod 1024) * 64 + 8.
Proof. apply (request_size_values 2047). lia. Defined.

Section Driver.

Variable heap_base : Z.
Hypothesis heap_base_pos : 0 < heap_base.
Hypothesis heap_low : heap_base + HEAP_SIZE <= 2 ^ 63.

Variable rnd : nat -> Z.
Hypothesis rnd_nonneg : forall k, 0 <= rnd k.

Lemma length_set_nth {A : Type} (k : nat) (v : A) (l : list A) :
  length (set_nth k v l) = length l.
Proof.
  revert k; induction l as [|x l IH]; intros k; [now destruct k|].
  destruct k; cbn; [reflexivity|]. now rewrite IH.
Qed.

Lemma nth_set_nth_other (j k : nat) (v d : Z) (l : list Z) :
  j <> k -> nth j (set_nth k v l) d = nth j l d.
Proof.
  revert j k; induction l as [|x l IH]; intros j k Hjk; [now destruct k|].
  destruct k, j; cbn; try reflexivity; try congruence.
  apply IH. congruence.
Qed.

Lemma nth_set_nth_same (k : nat) (v d : Z) (l : list Z) :
  (k < length l)%nat -> nth k (set_nth k v l) d = v.
Proof.
  revert k; induction l as [|x l IH]; intros k Hk; [cbn in Hk; lia|].
  destruct k; cbn; [reflexivity|]. apply IH. cbn in Hk. lia.
Qed.

Lemma count_set_nth (q v : Z) (l : list Z) :
  forall k, (k < length l)%nat ->
  (count_occ Z.eq_dec (set_nth k v l) q +
   (if Z.eq_dec (nth k l NULL) q then 1 else 0)
   = count_occ Z.eq_dec l q + (if Z.eq_dec v q then 1 else 0))%nat.
Proof.
  induction l as [|x l IH]; intros k Hk; [cbn in Hk; lia|].
  destruct k; cbn [set_nth nth count_occ length] in *.
  - destruct (Z.eq_dec v q), (Z.eq_dec x q); lia.
  - specialize (IH k ltac:(lia)).
    destruct (Z.eq_dec x q); lia.
Qed.

Lemma handed_out_snoc (p : Z) (out : list line) (x : line) :
  handed_out p (out ++ [x]) =
  (handed_out p out + handed_out p [x])%nat.
Proof.
  induction out as [|y out IH]; [reflexivity|].
  destruct y; cbn [app handed_out] in *; try destruct (p0 =? p); lia.
Qed.

Lemma given_back_snoc (p : Z) (out : list line) (x : line) :
  given_back p (out ++ [x]) =
  (given_back p out + given_back p [x])%nat.
Proof.
  induction out as [|y out IH]; [reflexivity|].
  destruct y; cbn [app given_back] in *; try destruct (p0 =? p); lia.
Qed.

Lemma balanced_snoc (out : list line) (x : line) :
  balanced out ->
  (forall p, (given_back p (out ++ [x]) <= handed_out p (out ++ [x]))%nat) ->
  balanced (out ++ [x]).
Proof.
  intros Hb Hx pre suf p E. revert E.
  induction suf as [|y suf _] using rev_ind; intros E.
  - rewrite app_nil_r in E. subst pre. apply Hx.
  - rewrite app_assoc in E. apply app_inj_tail in E as [E _].
    apply (Hb pre suf p E).
Qed.

Lemma balanced_nil : balanced [].
Proof.
  intros pre suf p E. symmetry in E. apply app_eq_nil in E as [-> _].
  cbn. lia.
Qed.

Lemma request_size_modest (r : Z) : 0 <= r -> modest (request_size r).
Proof.
  intros Hr. unfold modest, request_size, wrap.
  rewrite Z.rem_mod_nonneg by lia.
  pose proof (Z.mod_pos_bound r 1024 ltac:(lia)).
  rewrite Z.mod_small by lia. lia.
Qed.

Lemma driver_step_inv (fuel : nat) (d d' : driver_state) (i : nat) :
  (i < NUM_ALLOCATIONS)%nat ->
  driver_inv heap_base i d ->
  driver_step heap_base fuel rnd d i = Done d' ->
  driver_inv heap_base (S i) d'.
Proof.
  intros Hi (Hlen & Hnull & Hcnt & Hgn & Hbal & Hbrk) E.
  unfold driver_step in E.
  destruct (Z.rem (rnd (2 * i)) 2 =? 0).
  - (* allocate into slot i *)
    bind_inv E. destruct a as [st1 p]. inversion E; subst d'; clear E.
    unfold driver_inv. cbn [d_alloc d_slots d_out].
    pose proof (HmmAlloc_break heap_base heap_base_pos heap_low fuel
                  (d_alloc d) st1 _ p
                  (request_size_modest _ (rnd_nonneg _)) Hbrk E0) as [Hb1 _].
    assert (Hcnt' : forall q, q <> NULL ->
              (count_occ Z.eq_dec (set_nth i p (d_slots d)) q
               + given_back q (d_out d))%nat
              = (handed_out q (d_out d) + (if Z.eq_dec p q then 1 else 0))%nat).
    { intros q Hq. specialize (Hcnt q Hq).
      pose proof (count_set_nth q p (d_slots d) i ltac:(lia)) as Hc.
      rewrite (Hnull i (le_n i)) in Hc.
      destruct (Z.eq_dec NULL q); [congruence|]. lia. }
    split; [now rewrite length_set_nth|].
    split.
    { intros j Hj. rewrite nth_set_nth_other by lia. apply Hnull. lia. }
    assert (Hline : forall sz q, q <> NULL ->
              handed_out q [if p =? NULL then AllocationFailed sz
                            else Allocated sz p]
              = (if Z.eq_dec p q then 1 else 0)%nat).
    { intros sz q Hq. destruct (p =? NULL) eqn:Ep.
      - apply Z.eqb_eq in Ep. cbn. destruct (Z.eq_dec p q); [congruence|reflexivity].
      - cbn. destruct (Z.eq_dec p q) as [->|Hne].
        + now rewrite Z.eqb_refl.
        + apply Z.eqb_neq in Hne. now rewrite Hne. }
    assert (Hgb : forall sz q,
              given_back q
                (d_out d ++ [if p =? NULL then AllocationFailed sz
                             else Allocated sz p])
              = given_back q (d_out d)).
    { intros sz q. rewrite given_back_snoc. destruct (p =? NULL); cbn; lia. }
    split.
    { intros q Hq. rewrite Hgb, handed_out_snoc, (Hline _ q Hq). now apply Hcnt'. }
    split; [now rewrite Hgb|].
    split; [|exact Hb1].
    apply balanced_snoc; [exact Hbal|].
    intros q. rewrite Hgb, handed_out_snoc.
    specialize (Hbal (d_out d) [] q (eq_sym (app_nil_r _))). lia.
  - (* free the slot drawn, when it is in use *)
    set (fi := Z.to_nat (Z.rem (rnd (2 * i + 1)) 100)) in *.
    destruct (nth fi (d_slots d) NULL =? NULL) eqn:Ep.
    + inversion E; subst d'. unfold driver_inv.
      repeat split; try assumption; try apply Hbrk.
      intros j Hj. apply Hnull. lia.
    + apply Z.eqb_neq in Ep. set (p := nth fi (d_slots d) NULL) in *.
      bind_inv E. inversion E; subst d'; clear E.
      unfold driver_inv. cbn [d_alloc d_slots d_out].
      pose proof (HmmFree_break heap_base fuel (d_alloc d) a p E0) as Hpb.
      assert (Hfi : (fi < length (d_slots d))%nat).
      { destruct (Nat.lt_ge_cases fi (length (d_slots d))) as [H|H]; [exact H|].
        exfalso. apply Ep. unfold p. now apply nth_overflow. }
      assert (Hgb : forall q,
                given_back q (d_out d ++ [Freed p])
                = (given_back q (d_out d) + (if Z.eq_dec p q then 1 else 0))%nat).
      { intros q. rewrite given_back_snoc. cbn.
        destruct (Z.eq_dec p q) as [->|Hne].
        - now rewrite Z.eqb_refl.
        - apply Z.eqb_neq in Hne. now rewrite Hne. }
      assert (Hho : forall q,
                handed_out q (d_out d ++ [Freed p]) = handed_out q (d_out d)).
      { intros q. rewrite handed_out_snoc. cbn. lia. }
      assert (Hcnt' : forall q, q <> NULL ->
                (count_occ Z.eq_dec (set_nth fi NULL (d_slots d)) q
                 + given_back q (d_out d ++ [Freed p]))%nat
                = handed_out q (d_out d)).
      { intros q Hq. rewrite Hgb. specialize (Hcnt q Hq).
        pose proof (count_set_nth q NULL (d_slots d) fi Hfi) as Hc.
        fold p in Hc. destruct (Z.eq_dec NULL q); [congruence|].
        destruct (Z.eq_dec p q); lia. }
      split; [now rewrite length_set_nth|].
      split.
      { intros j Hj. destruct (Nat.eq_dec j fi) as [->|Hne].
        - apply nth_set_nth_same. exact Hfi.
        - rewrite nth_set_nth_other by exact Hne. apply Hnull. lia. }
      split.
      { intros q Hq. rewrite Hho. now apply Hcnt'. }
      split.
      { rewrite Hgb, Hgn. destruct (Z.eq_dec p NULL); [congruence|reflexivity]. }
      split.
      { apply balanced_snoc; [exact Hbal|].
        intros q. rewrite Hho. destruct (Z.eq_dec q NULL) as [->|Hq].
        - rewrite Hgb, Hgn. destruct (Z.eq_dec p NULL); [congruence|]. lia.
        - specialize (Hcnt' q Hq). lia. }
      rewrite Hpb. exact Hbrk.
Qed.

Lemma driver_loop_inv (fuel : nat) (n : nat) :
  forall (i : nat) (d d' : driver_state),
  (i + n = NUM_ALLOCATIONS)%nat ->
  driver_inv heap_base i d ->
  driver_loop heap_base fuel rnd n i d = Done d' ->
  driver_inv heap_base NUM_ALLOCATIONS d'.
Proof.
  induction n as [|n IH]; intros i d d' Hin Hinv E; cbn [driver_loop] in E.
  - inversion E; subst. replace NUM_ALLOCATIONS with i by lia. exact Hinv.
  - bind_inv E.
    apply (IH (S i) a d' ltac:(lia)); [|exact E].
    apply (driver_step_inv fuel d a i ltac:(lia) Hinv E0).
Qed.

Lemma driver_cleanup_inv (fuel : nat) (slots : list Z) :
  forall (st st' : state) (out out' : list line),
  (forall q, q <> NULL ->
     (count_occ Z.eq_dec slots q + given_back q out)%nat = handed_out q out) ->
  given_back NULL out = O ->
  balanced out ->
  heap_base <= program_break st <= heap_base + HEAP_SIZE ->
  driver_cleanup heap_base fuel slots st out = Done (st', out') ->
  (forall q, q <> NULL -> given_back q out' = handed_out q out') /\
  given_back NULL out' = O /\
  balanced out' /\
  heap_base <= program_break st' <= heap_base + HEAP_SIZE.
Proof.
  induction slots as [|p slots IH]; intros st st' out out' Hcnt Hgn Hbal Hbrk E;
    cbn [driver_cleanup] in E.
  - inversion E; subst. split; [|auto].
    intros q Hq. specialize (Hcnt q Hq). cbn in Hcnt. lia.
  - destruct (p =? NULL) eqn:Ep.
    + apply Z.eqb_eq in Ep. subst p.
      apply (IH st st' out out'); auto.
      intros q Hq. specialize (Hcnt q Hq). cbn [count_occ] in Hcnt.
      destruct (Z.eq_dec NULL q); [congruence|]. exact Hcnt.
    + apply Z.eqb_neq in Ep. bind_inv E.
      pose proof (HmmFree_break heap_base fuel st a p E0) as Hpb.
      assert (Hgb : forall q,
                given_back q (out ++ [FreedRemaining p])
                = (given_back q out + (if Z.eq_dec p q then 1 else 0))%nat).
      { intros q. rewrite given_back_snoc. cbn.
        destruct (Z.eq_dec p q) as [->|Hne].
        - now rewrite Z.eqb_refl.
        - apply Z.eqb_neq in Hne. now rewrite Hne. }
      assert (Hho : forall q,
                handed_out q (out ++ [FreedRemaining p]) = handed_out q out).
      { intros q. rewrite handed_out_snoc. cbn. lia. }
      assert (Hcnt' : forall q, q <> NULL ->
                (count_occ Z.eq_dec slots q
                 + given_back q (out ++ [FreedRemaining p]))%nat
                = handed_out q out).
      { intros q Hq. rewrite Hgb. specialize (Hcnt q Hq).
        cbn [count_occ] in Hcnt. destruct (Z.eq_dec p q); lia. }
      apply (IH a st' (out ++ [FreedRemaining p]) out'); auto.
      * intros q Hq. rewrite Hho. now apply Hcnt'.
      * rewrite Hgb, Hgn. destruct (Z.eq_dec p NULL); [congruence|reflexivity].
      * apply balanced_snoc; [exact Hbal|].
        intros q. rewrite Hho. destruct (Z.eq_dec q NULL) as [->|Hq].
        -- rewrite Hgb, Hgn. destruct (Z.eq_dec p NULL); [congruence|]. lia.
        -- specialize (Hcnt' q Hq). lia.
      * rewrite Hpb. exact Hbrk.
Qed.

Lemma driver_inv_start :
  driver_inv heap_base 0
    (mkDriver (initial heap_base) (repeat NULL NUM_ALLOCATIONS) []).
Proof.
  unfold driver_inv. cbn [d_alloc d_slots d_out].
  split; [apply repeat_length|]. split.
  { intros j _. apply nth_repeat. }
  split.
  { intros q Hq.
    assert (H0 : count_occ Z.eq_dec (repeat NULL NUM_ALLOCATIONS) q = O).
    { apply count_occ_not_In. intros Hin. apply repeat_spec in Hin.
      congruence. }
    rewrite H0. reflexivity. }
  split; [reflexivity|]. split; [apply balanced_nil|].
  cbn. unfold HEAP_SIZE. lia.
Qed.

Lemma driver_end (fuel : nat) (st' : state) (out : list line) :
  driver heap_base fuel rnd = Done (st', out) ->
  (forall q, q <> NULL -> given_back q out = handed_out q out) /\
  given_back NULL out = O /\
  balanced out /\
  heap_base <= program_break st' <= heap_base + HEAP_SIZE.
Proof.
  unfold driver. intros E. bind_inv E.
  pose proof (driver_loop_inv fuel NUM_ALLOCATIONS 0 _ a eq_refl
                driver_inv_start E0)
    as (_ & _ & Hcnt & Hgn & Hbal & Hbrk).
  exact (driver_cleanup_inv fuel (d_slots a) (d_alloc a) st' (d_out a) out
           Hcnt Hgn Hbal Hbrk E).
Qed.

End Driver.

Lemma stress_rnd_nonneg (k : nat) : 0 <= stress_rnd k.
Proof.
  unfold stress_rnd. do 10 (destruct k as [|k]; [lia|]). lia.
Qed.

Lemma stress_run :
  driver heap_at 10 stress_rnd = Done (after_stress, stress_out).
Proof. apply done_state_of. vm_compute. reflexivity. Qed.

(** X13: for every sequence of calls whose requests are of at most 2^62
    bytes, started with the break in the array, the break is in the array
    when the sequence returns, and it has not moved back: HmmFree never
    gives memory back. *)
Theorem calls_keep_break (heap_base : Z) (fuel : nat) (ops : list call)
    (st st' : state) (live live' : list Z) :
  0 < heap_base ->
  heap_base + HEAP_SIZE <= 2 ^ 63 ->
  Forall (fun op => match op with
                    | Allocate size => modest size
                    | Release _ => True
                    end) ops ->
  break_in_arena heap_base st ->
  run heap_base fuel (st, live) ops = Done (st', live') ->
  break_in_arena heap_base st' /\ program_break st <= program_break st'.
Proof.
  intros Hb Hlow. exact (run_break heap_base Hb Hlow fuel ops st st' live live').
Qed.

Lemma calls_keep_break_witness :
  break_in_arena heap_at after_stray_calls /\
  program_break (initial heap_at) <= program_break after_stray_calls.
Proof.
  apply (calls_keep_break heap_at 4 stray_calls (initial heap_at)
           after_stray_calls [] [heap_at + 56]).
  - unfold heap_at. lia.
  - unfold heap_at, HEAP_SIZE. lia.
  - unfold stray_calls, modest. repeat constructor; lia.
  - split; vm_compute; discriminate.
  - apply done_state_of. vm_compute. reflexivity.
Defined.

(** X14: the stress driver, linked with this allocator, leaves the break
    in the array: whatever rand() returns (values from 0 on), when main
    returns the break is between the start and the end of the array. *)
Theorem driver_keeps_break (heap_base : Z) (rnd : nat -> Z) (fuel : nat)
    (st' : state) (out : list line) :
  0 < heap_base ->
  heap_base + HEAP_SIZE <= 2 ^ 63 ->
  (forall k, 0 <= rnd k) ->
  driver heap_base fuel rnd = Done (st', out) ->
  break_in_arena heap_base st'.
Proof.
  intros Hb Hlow Hrnd E.
  apply (driver_end heap_base Hb Hlow rnd Hrnd fuel st' out E).
Qed.

Lemma driver_keeps_break_witness : break_in_arena heap_at after_stress.
Proof.
  apply (driver_keeps_break heap_at stress_rnd 10 after_stress stress_out).
  - unfold heap_at. lia.
  - unfold heap_at, HEAP_SIZE. lia.
  - exact stress_rnd_nonneg.
  - exact stress_run.
Defined.

(** X15: the lines the stress driver prints are balanced.  Whatever
    rand() returns, when main returns: at every point of the output no
    pointer has been reported freed more often than it was reported
    allocated, the null pointer is never reported freed, and at the end
    every pointer has been reported freed exactly as often as it was
    reported allocated, so the second loop leaves nothing behind and the
    driver frees no pointer that it does not hold. *)
Theorem driver_output_balanced (heap_base : Z) (rnd : nat -> Z) (fuel : nat)
    (st' : state) (out : list line) :
  0 < heap_base ->
  heap_base + HEAP_SIZE <= 2 ^ 63 ->
  (forall k, 0 <= rnd k) ->
  driver heap_base fuel rnd = Done (st', out) ->
  balanced out /\
  given_back NULL out = O /\
  forall q, q <> NULL -> given_back q out = handed_out q out.
Proof.
  intros Hb Hlow Hrnd E.
  destruct (driver_end heap_base Hb Hlow rnd Hrnd fuel st' out E)
    as (Hall & Hnull & Hbal & _).
  auto.
Qed.

Lemma driver_output_balanced_witness :
  balanced stress_out /\
  given_back NULL stress_out = O /\
  forall q, q <> NULL -> given_back q stress_out = handed_out q stress_out.
Proof.
  apply (driver_output_balanced heap_at stress_rnd 10 after_stress stress_out).
  - unfold heap_at. lia.
  - unfold heap_at, HEAP_SIZE. lia.
  - exact stress_rnd_nonneg.
  - exact stress_run.
Defined.
